(** * License header rewriter: the two scripts of civ.iq

    [scripts/update-license-headers.py] (AGPL -> MIT, regular expressions)
    and [scripts/update_license_headers.py] (MIT -> AGPL, literal text) are
    embedded below, each in a module of its own, over a common model of
    Python text, of the [re] patterns the first script compiles, and of the
    file system and console both scripts act on. *)

From Stdlib Require Import NArith Ascii String List Bool Lia.
From stdpp Require Import base option list gmap.

Local Open Scope N_scope.

(** ** Text

    A Python [str] is a sequence of Unicode code points. *)

Definition char := N.
Definition text := list char.

Definition nl : char := 10.

(** The code points of an ASCII literal. *)
Definition lit (s : string) : text := N_of_ascii <$> list_ascii_of_string s.

(** A triple-quoted literal, given line by line. *)
Fixpoint lines_lit (ls : list string) : text :=
  match ls with
  | [] => []
  | [l] => lit l
  | l :: ls' => lit l ++ nl :: lines_lit ls'
  end.

(** [s.startswith(p)] *)
Fixpoint startswith (s p : text) : bool :=
  match p, s with
  | [], _ => true
  | _ :: _, [] => false
  | b :: p', a :: s' => (a =? b) && startswith s' p'
  end.

(** [needle in hay] *)
Fixpoint contains (needle hay : text) : bool :=
  startswith hay needle ||
  match hay with
  | [] => false
  | _ :: hay' => contains needle hay'
  end.

(** [s.replace(old, new, 1)]: the leftmost occurrence only. *)
Fixpoint replace_first (old new s : text) : text :=
  if startswith s old then new ++ drop (length old) s
  else match s with
       | [] => []
       | a :: s' => a :: replace_first old new s'
       end.

(** [s.split('\n', 1)]: the text before the first newline and, when there is
    a newline, the text after it. *)
Fixpoint split_nl1 (s : text) : text * option text :=
  match s with
  | [] => ([], None)
  | a :: s' =>
      if a =? nl then ([], Some s')
      else let '(h, t) := split_nl1 s' in (a :: h, t)
  end.

(** ** The fragment of [re] the patterns use

    Both patterns are a concatenation of single characters, character
    classes, and [?], [*] and [*?] applied to one character or class.  They
    are compiled with [re.DOTALL], so [.] matches every character; they hold
    no [^] or [$], so [re.MULTILINE] changes nothing. *)

(** [\s] on a [str] pattern: the code points with [str.isspace()]. *)
Definition is_space (c : char) : bool :=
  (9 <=? c) && (c <=? 13) || (28 <=? c) && (c <=? 32) ||
  (c =? 133) || (c =? 160) || (c =? 5760) ||
  (8192 <=? c) && (c <=? 8202) ||
  (c =? 8232) || (c =? 8233) || (c =? 8239) || (c =? 8287) || (c =? 12288).

Inductive atom :=
| Lit (c : char)          (* a literal or escaped character *)
| Space                   (* \s *)
| Any                     (* . under DOTALL *)
| OneOf (cs : list char). (* [...] *)

Definition atom_ok (a : atom) (c : char) : bool :=
  match a with
  | Lit d => c =? d
  | Space => is_space c
  | Any => true
  | OneOf cs => existsb (N.eqb c) cs
  end.

Inductive item :=
| One (a : atom)       (* a   *)
| Opt (a : atom)       (* a?  greedy *)
| Star (a : atom)      (* a*  greedy *)
| StarLazy (a : atom). (* a*? *)

Definition regex := list item.

(** [pattern.match(s)]: the length of the match at the start of [s] that the
    backtracking engine finds first.  A greedy item tries the longer
    alternative first, a lazy one the shorter. *)
Fixpoint rmatch (r : regex) (s : text) {struct r} : option nat :=
  match r with
  | [] => Some 0%nat
  | One a :: r' =>
      match s with
      | c :: s' => if atom_ok a c then S <$> rmatch r' s' else None
      | [] => None
      end
  | Opt a :: r' =>
      match s with
      | c :: s' =>
          if atom_ok a c then
            match rmatch r' s' with
            | Some n => Some (S n)
            | None => rmatch r' s
            end
          else rmatch r' s
      | [] => rmatch r' s
      end
  | Star a :: r' =>
      (fix star (s : text) : option nat :=
         match s with
         | c :: s' =>
             if atom_ok a c then
               match star s' with
               | Some n => Some (S n)
               | None => rmatch r' s
               end
             else rmatch r' s
         | [] => rmatch r' s
         end) s
  | StarLazy a :: r' =>
      (fix lazy (s : text) : option nat :=
         match rmatch r' s with
         | Some n => Some n
         | None =>
             match s with
             | c :: s' => if atom_ok a c then S <$> lazy s' else None
             | [] => None
             end
         end) s
  end.

(** [pattern.search(s)]: start and length of the leftmost match. *)
Fixpoint search (r : regex) (s : text) : option (nat * nat) :=
  match rmatch r s with
  | Some n => Some (0%nat, n)
  | None =>
      match s with
      | [] => None
      | _ :: s' => prod_map S id <$> search r s'
      end
  end.

(** [pattern.sub(repl, s)] for a replacement without backslashes: every
    non-overlapping match, left to right, is replaced.  [skip] counts the
    characters of the current match that are still to be dropped.  Both
    patterns start with a literal character, so the branch for an empty
    match is never taken with them. *)
Fixpoint sub_from (r : regex) (repl : text) (skip : nat) (s : text) : text :=
  match skip with
  | S k =>
      match s with
      | [] => []
      | _ :: s' => sub_from r repl k s'
      end
  | O =>
      match rmatch r s with
      | Some (S n) =>
          repl ++ match s with
                  | [] => []
                  | _ :: s' => sub_from r repl n s'
                  end
      | Some O =>
          repl ++ match s with
                  | [] => []
                  | a :: s' => a :: sub_from r repl 0 s'
                  end
      | None =>
          match s with
          | [] => []
          | a :: s' => a :: sub_from r repl 0 s'
          end
      end
  end.

Definition sub (r : regex) (repl s : text) : text := sub_from r repl 0 s.

Definition lits (s : string) : regex := (fun c => One (Lit c)) <$> lit s.

(** ** Files and console

    A file is found under its path; its bytes decode to a text or do not
    ([data = None]: [open] or [f.read()] raises), and it can be opened for
    writing or not.  [data] is the text [f.read()] returns.  A file that can
    be opened for writing may still make the write raise after the open,
    which has emptied it ([breaks = Some n]: the disk is full, the file too
    large, the device fails): the first [n] characters of the new text have
    reached the file by then.  The world also records every completed write
    and every line printed, oldest first; of the lines printed, those that
    carry a path or a count are kept, the banners and empty lines of [main]
    are not. *)

Definition path := text.

Record file := MkFile { data : option text; writable : bool; breaks : option nat }.

(** A file on which no write breaks after the open. *)
Abbreviation File d wr := (MkFile d wr None).

Inductive line :=
| ErrorLine (p : path)                    (* "Error processing {p}: {e}" *)
| UpdatedLine (p : path)                  (* "Updated: {p}" *)
| ProcessedLine (total updated : nat)     (* "Processed .. files, updated .. files" *)
| ProgressLine (i total : nat)            (* "Progress: {i}/{total} files processed..." *)
| ReplacedLine (p : path)                 (* "Replaced MIT with AGPL header in: {p}" *)
| AddedLine (p : path)                    (* "Added AGPL header to: {p}" *)
| SummaryLine (total replaced added skipped errors : nat)
| SuccessLine (n : nat)                   (* "Successfully updated {n} files ..." *)
| NothingLine                             (* "No files needed license header updates." *)
| ErrorsLine (errors : nat).              (* "There were {errors} errors during processing." *)

Record world := World {
  disk : gmap path file;
  written : list (path * text);
  console : list line
}.

(** [open(p, 'r', encoding='utf-8')] and [f.read()]; [None] is an exception. *)
Definition read_text (p : path) (w : world) : option text :=
  disk w !! p ≫= data.

(** How a write ends: it is completed, or it raises. *)
Inductive attempt :=
| Done (w : world)
| Raised (w : world).

(** [open(p, 'w', encoding='utf-8')] and [f.write(s)].  An open for writing
    that is refused raises and leaves the file as it was; an open that is
    granted empties the file, and a write that raises after it leaves the
    part of [s] that reached the file. *)
Definition write_text (p : path) (s : text) (w : world) : attempt :=
  let stored := World (<[p := File (Some s) true]> (disk w))
                      (written w ++ [(p, s)]) (console w) in
  match disk w !! p with
  | Some f =>
      if writable f then
        match breaks f with
        | None => Done stored
        | Some n =>
            Raised (World (<[p := MkFile (Some (take n s)) true (Some n)]> (disk w))
                          (written w) (console w))
        end
      else Raised w
  | None => Done stored
  end.

Definition print (l : line) (w : world) : world :=
  World (disk w) (written w) (console w ++ [l]).

(** ** scripts/update-license-headers.py *)

Module ToMit.

Definition NEW_HEADER : text :=
  lines_lit [ "/**";
              " * Copyright (c) 2019-2025 Mark Sandford";
              " * Licensed under the MIT License. See LICENSE and NOTICE files.";
              " */" ]%string.

(** [/\*\s*\n\s*\*\s*CIV\.IQ.*?\n.*?GNU Affero General Public License.*?\*/\s*\n] *)
Definition AGPL_PATTERN : regex :=
  [One (Lit 47); One (Lit 42); Star Space; One (Lit nl);
   Star Space; One (Lit 42); Star Space]
  ++ lits "CIV.IQ"
  ++ [StarLazy Any; One (Lit nl); StarLazy Any]
  ++ lits "GNU Affero General Public License"
  ++ [StarLazy Any; One (Lit 42); One (Lit 47); Star Space; One (Lit nl)].

(** [/\*\*?\s*\n.*?[Cc]opyright.*?\*/\s*\n] *)
Definition COPYRIGHT_PATTERN : regex :=
  [One (Lit 47); One (Lit 42); Opt (Lit 42); Star Space; One (Lit nl);
   StarLazy Any; One (OneOf (lit "Cc"))]
  ++ lits "opyright"
  ++ [StarLazy Any; One (Lit 42); One (Lit 47); Star Space; One (Lit nl)].

Definition USE_CLIENT : text := lit "'use client'".

(** The value of [content] when [update_file] reaches its comparison with
    [original]. *)
Definition new_content (original : text) : text :=
  match search AGPL_PATTERN original with
  | Some _ => sub AGPL_PATTERN (NEW_HEADER ++ [nl; nl]) original
  | None =>
      match search COPYRIGHT_PATTERN original with
      | Some _ => sub COPYRIGHT_PATTERN (NEW_HEADER ++ [nl; nl]) original
      | None =>
          if startswith original USE_CLIENT then
            let lines := split_nl1 original in
            lines.1 ++ [nl; nl] ++ NEW_HEADER ++ [nl; nl] ++ default [] lines.2
          else NEW_HEADER ++ [nl; nl] ++ original
      end
  end.

Definition update_file (filepath : path) (w : world) : bool * world :=
  match read_text filepath w with
  | None => (false, print (ErrorLine filepath) w)
  | Some original =>
      let content := new_content original in
      if decide (content = original) then (false, w)
      else match write_text filepath content w with
           | Done w' => (true, w')
           | Raised w' => (false, print (ErrorLine filepath) w')
           end
  end.

Definition excluded (filepath : path) : bool :=
  existsb (fun part => contains (lit part) filepath)
          ["node_modules"; ".next"; "dist"; "build"]%string.

(** The loop of [main] over the paths [rglob] yields, in the order it yields
    them. *)
Fixpoint scan (files : list path) (total_count updated_count : nat) (w : world)
  : nat * nat * world :=
  match files with
  | [] => (total_count, updated_count, w)
  | filepath :: files' =>
      if excluded filepath then scan files' total_count updated_count w
      else
        let '(updated, w') := update_file filepath w in
        if updated
        then scan files' (S total_count) (S updated_count)
                  (print (UpdatedLine filepath) w')
        else scan files' (S total_count) updated_count w'
  end.

(** [main] returns normally, so the exit status of the process is 0. *)
Definition main (files : list path) (w : world) : nat * world :=
  let '(total_count, updated_count, w') := scan files 0 0 w in
  (0%nat, print (ProcessedLine total_count updated_count) w').

End ToMit.

(** ** scripts/update_license_headers.py *)

Module ToAgpl.

Definition OLD_MIT_HEADER : text :=
  lines_lit [ "/**";
              " * CIV.IQ - Civic Information  ";
              " * Copyright (c) 2025 CIV.IQ ";
              " * Licensed under MIT License";
              " * Built with public government data";
              " */" ]%string.

Definition NEW_AGPL_HEADER : text :=
  lines_lit [ "/*";
              " * CIV.IQ - Civic Information Hub";
              " * Copyright (C) 2025 Mark Sandford";
              " * ";
              " * This program is free software: you can redistribute it and/or modify";
              " * it under the terms of the GNU Affero General Public License as published by";
              " * the Free Software Foundation, either version 3 of the License, or";
              " * (at your option) any later version.";
              " *";
              " * This program is distributed in the hope that it will be useful,";
              " * but WITHOUT ANY WARRANTY; without even the implied warranty of";
              " * MERCHANTABILITY or FITNESS FOR A PARTICULAR PURPOSE. See the";
              " * GNU Affero General Public License for more details.";
              " *";
              " * You should have received a copy of the GNU Affero General Public License";
              " * along with this program. If not, see <https://www.gnu.org/licenses/>.";
              " *";
              " * For commercial licensing inquiries: mark@marksandford.dev";
              " */" ]%string.

Inductive outcome := replaced | added | skipped | error.

(** ['Copyright' not in content[:1000] and 'copyright' not in content[:1000]] *)
Definition no_copyright (content : text) : bool :=
  negb (contains (lit "Copyright") (take 1000 content)) &&
  negb (contains (lit "copyright") (take 1000 content)).

Definition process_file (file_path : path) (w : world) : outcome * world :=
  match read_text file_path w with
  | None => (error, print (ErrorLine file_path) w)
  | Some content =>
      if contains OLD_MIT_HEADER content then
        let new_content := replace_first OLD_MIT_HEADER NEW_AGPL_HEADER content in
        match write_text file_path new_content w with
        | Done w' => (replaced, w')
        | Raised w' => (error, print (ErrorLine file_path) w')
        end
      else if no_copyright content then
        let new_content := NEW_AGPL_HEADER ++ [nl; nl] ++ content in
        match write_text file_path new_content w with
        | Done w' => (added, w')
        | Raised w' => (error, print (ErrorLine file_path) w')
        end
      else (skipped, w)
  end.

(** What [process_file] makes of a content it could read: the outcome it
    works towards and the content the file is to have afterwards
    ([process_file_readable] below relates the two). *)
Definition rewrite (content : text) : outcome * text :=
  if contains OLD_MIT_HEADER content then
    (replaced, replace_first OLD_MIT_HEADER NEW_AGPL_HEADER content)
  else if no_copyright content then
    (added, NEW_AGPL_HEADER ++ [nl; nl] ++ content)
  else (skipped, content).

Record counters := Counters {
  replaced_count : nat; added_count : nat; skipped_count : nat; errors : nat
}.

(** The loop of [main]; [i] is the index [enumerate(files, 1)] gives. *)
Fixpoint scan (files : list path) (i total_files : nat) (c : counters) (w : world)
  : counters * world :=
  match files with
  | [] => (c, w)
  | file_path :: files' =>
      let w0 := if (i mod 10 =? 0)%nat then print (ProgressLine i total_files) w
                else w in
      let '(result, w1) := process_file file_path w0 in
      let '(c', w2) :=
        match result with
        | replaced =>
            (Counters (S (replaced_count c)) (added_count c) (skipped_count c) (errors c),
             print (ReplacedLine file_path) w1)
        | added =>
            (Counters (replaced_count c) (S (added_count c)) (skipped_count c) (errors c),
             print (AddedLine file_path) w1)
        | skipped =>
            (Counters (replaced_count c) (added_count c) (S (skipped_count c)) (errors c), w1)
        | error =>
            (Counters (replaced_count c) (added_count c) (skipped_count c) (S (errors c)), w1)
        end in
      scan files' (S i) total_files c' w2
  end.

(** [main] over the sorted list of files found; the first component is the
    exit status: [sys.exit(1)] when errors were counted, 0 when [main]
    returns. *)
Definition main (files : list path) (w : world) : nat * counters * world :=
  let total_files := length files in
  let '(c, w1) := scan files 1 total_files (Counters 0 0 0 0) w in
  let w2 := print (SummaryLine total_files (replaced_count c) (added_count c)
                               (skipped_count c) (errors c)) w1 in
  let w3 := if (0 <? replaced_count c + added_count c)%nat
            then print (SuccessLine (replaced_count c + added_count c)) w2
            else print NothingLine w2 in
  if (0 <? errors c)%nat then (1%nat, c, print (ErrorsLine (errors c)) w3)
  else (0%nat, c, w3).

End ToAgpl.

(** ** Vocabulary of the statements *)

(** Going from world [w] to [w'], exactly one write was completed, on [p]. *)
Definition wrote (p : path) (w w' : world) : Prop :=
  ∃ s, written w' = written w ++ [(p, s)].

(** The world after [s] was stored under [p]. *)
Definition stored (p : path) (s : text) (w : world) : world :=
  World (<[p := File (Some s) true]> (disk w)) (written w ++ [(p, s)]) (console w).

(** The per-file operation fails on [p]: the file cannot be read, or the new
    content [f] gives it differs from the old one and cannot be written,
    the open being refused or the write breaking after it. *)
Definition fails (f : text → text) (p : path) (w : world) : Prop :=
  match disk w !! p with
  | None => True
  | Some (MkFile None _ _) => True
  | Some (MkFile (Some c) wr b) => f c ≠ c ∧ (wr = false ∨ is_Some b)
  end.

(** What a failed operation leaves of the world, the error line apart: the
    world as it was, except that a readable file whose write broke after the
    open holds the part of its new content [f c] that reached it. *)
Definition left_by_failure (f : text → text) (p : path) (w : world) : world :=
  match disk w !! p with
  | Some (MkFile (Some c) true (Some n)) =>
      World (<[p := MkFile (Some (take n (f c))) true (Some n)]> (disk w))
            (written w) (console w)
  | _ => w
  end.

Definition is_error_line (l : line) : bool :=
  match l with
  | ErrorLine _ => true
  | _ => false
  end.

(** Number of error lines on a console. *)
Definition error_lines (out : list line) : nat :=
  length (List.filter is_error_line out).

(** The texts a pattern can match, whatever the order in which the engine
    tries them. *)
Inductive denotes : regex → text → Prop :=
| denotes_nil : denotes [] []
| denotes_one a r c t :
    atom_ok a c = true → denotes r t → denotes (One a :: r) (c :: t)
| denotes_opt_skip a r t :
    denotes r t → denotes (Opt a :: r) t
| denotes_opt_take a r c t :
    atom_ok a c = true → denotes r t → denotes (Opt a :: r) (c :: t)
| denotes_star a r u t :
    forallb (atom_ok a) u = true → denotes r t → denotes (Star a :: r) (u ++ t)
| denotes_lazy a r u t :
    forallb (atom_ok a) u = true → denotes r t → denotes (StarLazy a :: r) (u ++ t).

(** The texts [COPYRIGHT_PATTERN] can match, spelled out: a comment opener
    with one or two stars, whitespace and a newline, any text, ["Copyright"]
    or ["copyright"], any text, a comment close, whitespace and a newline. *)
Definition copyright_span (t : text) : Prop :=
  ∃ star ws1 body1 ch body2 ws2,
    t = lit "/*" ++ star ++ ws1 ++ [nl] ++ body1 ++ [ch] ++ lit "opyright"
        ++ body2 ++ lit "*/" ++ ws2 ++ [nl] ∧
    (star = [] ∨ star = [42]) ∧
    forallb is_space ws1 = true ∧
    (ch = 67 ∨ ch = 99) ∧
    forallb is_space ws2 = true.

(** [t] and [needle] differ at a position both have. *)
Fixpoint clash (t needle : text) : bool :=
  match t, needle with
  | a :: t', b :: needle' => negb (a =? b) || clash t' needle'
  | _, _ => false
  end.

(** No occurrence of [needle] can start inside [pre], whatever follows. *)
Fixpoint never_starts (needle pre : text) : bool :=
  match pre with
  | [] => true
  | _ :: pre' => clash pre needle && never_starts needle pre'
  end.

(** The whitespace a text starts with holds no newline. *)
Fixpoint clean_start (s : text) : bool :=
  match s with
  | [] => true
  | a :: s' =>
      if a =? nl then false
      else if is_space a then clean_start s'
      else true
  end.

(** The texts [AGPL_PATTERN] can match, spelled out: a one-star comment
    opener, whitespace and a newline, whitespace, a star, whitespace,
    ["CIV.IQ"], any text, a newline, any text, the name of the licence, any
    text, a comment close, whitespace and a newline. *)
Definition agpl_span (t : text) : Prop :=
  ∃ ws1 ws2 ws3 body1 body2 body3 ws4,
    t = lit "/*" ++ ws1 ++ [nl] ++ ws2 ++ lit "*" ++ ws3 ++ lit "CIV.IQ"
        ++ body1 ++ [nl] ++ body2 ++ lit "GNU Affero General Public License"
        ++ body3 ++ lit "*/" ++ ws4 ++ [nl] ∧
    forallb is_space ws1 = true ∧ forallb is_space ws2 = true ∧
    forallb is_space ws3 = true ∧ forallb is_space ws4 = true.

(** Between [w] and [w'] the only change to the files is that some of the
    paths in [files] that held a readable, writable text hold another one:
    no file appears or disappears, none becomes unreadable or read-only. *)
Definition only_rewritten (files : list path) (w w' : world) : Prop :=
  ∀ q, disk w' !! q = disk w !! q ∨
       (q ∈ files ∧ ∃ c s b, disk w !! q = Some (MkFile (Some c) true b) ∧
                             disk w' !! q = Some (MkFile (Some s) true b)).

(** * Properties *)

(** ** Text operations *)

Section Text.

Implicit Types (s t p needle hay old new : text).

Lemma startswith_nil s : startswith s [] = true.
Proof. by destruct s. Qed.

Lemma startswith_app p t : startswith (p ++ t) p = true.
Proof. induction p as [|b p IH]; simpl; [apply startswith_nil|]. by rewrite N.eqb_refl. Qed.

Lemma startswith_inv s p : startswith s p = true → ∃ t, s = p ++ t.
Proof.
  revert s. induction p as [|b p IH]; intros s H; [by exists s|].
  destruct s as [|a s]; [done|]. simpl in H.
  apply andb_true_iff in H as [Hab H]. apply N.eqb_eq in Hab as ->.
  destruct (IH _ H) as [t ->]. by exists t.
Qed.

Lemma startswith_take s p : startswith s p = true → take (length p) s = p.
Proof. intros [t ->]%startswith_inv. by rewrite take_app_length. Qed.

Lemma startswith_drop s p : startswith s p = true → s = p ++ drop (length p) s.
Proof. intros [t ->]%startswith_inv. by rewrite drop_app_length. Qed.

Lemma startswith_length s p : startswith s p = true → (length p ≤ length s)%nat.
Proof. intros [t ->]%startswith_inv. rewrite length_app. lia. Qed.

Lemma contains_nil needle : contains needle [] = startswith [] needle || false.
Proof. done. Qed.

Lemma contains_cons needle a hay :
  contains needle (a :: hay) = startswith (a :: hay) needle || contains needle hay.
Proof. done. Qed.

Lemma contains_app_r needle pre hay :
  contains needle hay = true → contains needle (pre ++ hay) = true.
Proof.
  intros H. induction pre as [|a pre IH]; [done|].
  change ((a :: pre) ++ hay) with (a :: (pre ++ hay)).
  rewrite contains_cons, IH. apply orb_true_r.
Qed.

Lemma contains_startswith needle hay :
  startswith hay needle = true → contains needle hay = true.
Proof.
  intros H. destruct hay; [rewrite contains_nil|rewrite contains_cons]; by rewrite H.
Qed.

Lemma contains_here needle pre post : contains needle (pre ++ needle ++ post) = true.
Proof. apply contains_app_r, contains_startswith, startswith_app. Qed.

Lemma contains_inv needle hay :
  contains needle hay = true → ∃ pre post, hay = pre ++ needle ++ post.
Proof.
  induction hay as [|a hay IH].
  - rewrite contains_nil, orb_false_r. intros [t ->]%startswith_inv. by exists [], t.
  - rewrite contains_cons. intros [H|H]%orb_true_iff.
    + apply startswith_inv in H as [t ->]. by exists [], t.
    + destruct (IH H) as (pre & post & ->). by exists (a :: pre), post.
Qed.

Lemma contains_app_l needle hay post :
  contains needle hay = true → contains needle (hay ++ post) = true.
Proof.
  intros (pre & t & ->)%contains_inv. rewrite <- !app_assoc. apply contains_here.
Qed.

Lemma contains_false_cons needle a hay :
  contains needle (a :: hay) = false →
  startswith (a :: hay) needle = false ∧ contains needle hay = false.
Proof. rewrite contains_cons. apply orb_false_iff. Qed.

Lemma contains_false_drop needle n hay :
  contains needle hay = false → contains needle (drop n hay) = false.
Proof.
  revert hay. induction n as [|n IH]; intros hay H; [done|].
  destruct hay as [|a hay]; [done|]. apply IH. by apply contains_false_cons in H as [_ H].
Qed.

Lemma replace_first_startswith old new s :
  startswith s old = true → replace_first old new s = new ++ drop (length old) s.
Proof. intros H. destruct s; cbn [replace_first]; by rewrite H. Qed.

Lemma replace_first_here old new t :
  replace_first old new (old ++ t) = new ++ t.
Proof.
  rewrite replace_first_startswith by apply startswith_app.
  by rewrite drop_app_length.
Qed.

Lemma replace_first_skip old new a s :
  startswith (a :: s) old = false →
  replace_first old new (a :: s) = a :: replace_first old new s.
Proof. intros H. cbn [replace_first]. by rewrite H. Qed.

Lemma replace_first_length old new s :
  contains old s = true →
  (length (replace_first old new s) + length old = length s + length new)%nat.
Proof.
  induction s as [|a s IH]; intros H.
  - rewrite contains_nil, orb_false_r in H.
    rewrite replace_first_startswith by done.
    apply startswith_length in H. rewrite length_app, length_drop. lia.
  - rewrite contains_cons in H. destruct (startswith (a :: s) old) eqn:E.
    + pose proof (startswith_length _ _ E) as Hl.
      rewrite replace_first_startswith by done.
      rewrite length_app, length_drop. lia.
    + rewrite replace_first_skip by done. simpl in H. specialize (IH H).
      simpl. lia.
Qed.

Lemma replace_first_none old new s :
  contains old s = false → replace_first old new s = s.
Proof.
  induction s as [|a s IH]; intros H.
  - rewrite contains_nil, orb_false_r in H. cbn [replace_first]. by rewrite H.
  - apply contains_false_cons in H as [H1 H2].
    rewrite replace_first_skip by done. by rewrite IH.
Qed.

Lemma startswith_shorter s t p :
  startswith (s ++ t) p = true → (length p ≤ length s)%nat → startswith s p = true.
Proof.
  revert s. induction p as [|b p IH]; intros s H Hl; [apply startswith_nil|].
  destruct s as [|a s]; [simpl in Hl; lia|]. simpl in *.
  apply andb_true_iff in H as [-> H]. apply IH; [done|lia].
Qed.

Lemma removelast_snoc old :
  old ≠ [] → ∃ z, old = removelast old ++ [z] ∧ length old = S (length (removelast old)).
Proof.
  intros H. exists (List.last old 0). split; [by apply app_removelast_last|].
  rewrite removelast_firstn_len, length_take. destruct old; [done|simpl; lia].
Qed.

(** The leftmost occurrence is the one replaced. *)
Lemma replace_first_leftmost old new pre post :
  contains old (pre ++ removelast old) = false →
  replace_first old new (pre ++ old ++ post) = pre ++ new ++ post.
Proof.
  induction pre as [|a pre IH]; intros H; [exact (replace_first_here old new post)|].
  change ((a :: pre) ++ old ++ post) with (a :: (pre ++ old ++ post)).
  change ((a :: pre) ++ removelast old) with (a :: (pre ++ removelast old)) in H.
  apply contains_false_cons in H as [H1 H2].
  rewrite replace_first_skip, IH; [done..|].
  destruct (startswith (a :: pre ++ old ++ post) old) eqn:E; [|done].
  destruct old as [|b old]; [done|].
  destruct (removelast_snoc (b :: old)) as (z & Hz & Hl); [done|].
  rewrite Hz in E at 1. rewrite <- (app_assoc (removelast _)), (app_assoc pre) in E.
  change (a :: (?x ++ ?y) ++ ?t) with ((a :: x ++ y) ++ t) in E.
  apply startswith_shorter in E; [congruence|].
  rewrite Hl. simpl. rewrite length_app. simpl. lia.
Qed.

End Text.

(** ** The per-file operations on a file that can be read *)

Section PerFile.

Implicit Types (p : path) (w : world) (c : text).

Lemma read_text_Some p w c wr (b : option nat) :
  disk w !! p = Some (MkFile (Some c) wr b) → read_text p w = Some c.
Proof. unfold read_text. by intros ->. Qed.

Lemma read_text_inv p w c :
  read_text p w = Some c → ∃ wr b, disk w !! p = Some (MkFile (Some c) wr b).
Proof.
  unfold read_text. destruct (disk w !! p) as [[d wr b]|]; [|done].
  simpl. intros ->. by exists wr, b.
Qed.

Lemma write_text_ok p (s : text) w (d : option text) :
  disk w !! p = Some (File d true) → write_text p s w = Done (stored p s w).
Proof. unfold write_text. by intros ->. Qed.

Lemma write_text_ro p (s : text) w (d : option text) (b : option nat) :
  disk w !! p = Some (MkFile d false b) → write_text p s w = Raised w.
Proof. unfold write_text. by intros ->. Qed.

Lemma write_text_breaks p (s : text) w (d : option text) (n : nat) :
  disk w !! p = Some (MkFile d true (Some n)) →
  write_text p s w
  = Raised (World (<[p := MkFile (Some (take n s)) true (Some n)]> (disk w))
                  (written w) (console w)).
Proof. unfold write_text. by intros ->. Qed.

Lemma wrote_stored p (s : text) w : wrote p w (stored p s w).
Proof. by exists s. Qed.

Lemma not_wrote_eq p w w' : written w' = written w → ¬ wrote p w w'.
Proof.
  intros E [s H]. rewrite E in H. apply (f_equal length) in H.
  rewrite length_app in H. simpl in H. lia.
Qed.

Lemma not_wrote_same p w : ¬ wrote p w w.
Proof. by apply not_wrote_eq. Qed.

Lemma not_wrote_print p l w : ¬ wrote p w (print l w).
Proof. by apply not_wrote_eq. Qed.

Lemma update_file_readable p w c wr :
  disk w !! p = Some (File (Some c) wr) →
  ToMit.update_file p w =
    if decide (ToMit.new_content c = c) then (false, w)
    else if wr then (true, stored p (ToMit.new_content c) w)
         else (false, print (ErrorLine p) w).
Proof.
  intros H. unfold ToMit.update_file. rewrite (read_text_Some _ _ _ _ _ H).
  case_decide; [done|]. destruct wr.
  - by rewrite (write_text_ok _ _ _ _ H).
  - by rewrite (write_text_ro _ _ _ _ _ H).
Qed.

Lemma OLD_MIT_HEADER_length : length ToAgpl.OLD_MIT_HEADER = 136%nat.
Proof. reflexivity. Qed.

Lemma NEW_AGPL_HEADER_length : length ToAgpl.NEW_AGPL_HEADER = 810%nat.
Proof. reflexivity. Qed.


(** [rewrite] leaves the content as it is exactly when the file is skipped. *)
Lemma rewrite_same_iff c :
  (ToAgpl.rewrite c).2 = c ↔ (ToAgpl.rewrite c).1 = ToAgpl.skipped.
Proof.
  unfold ToAgpl.rewrite.
  destruct (contains ToAgpl.OLD_MIT_HEADER c) eqn:E; cbn [fst snd].
  - split; [|done]. intros H. apply (f_equal length) in H.
    pose proof (replace_first_length _ ToAgpl.NEW_AGPL_HEADER _ E) as Hl.
    rewrite H, OLD_MIT_HEADER_length, NEW_AGPL_HEADER_length in Hl. lia.
  - destruct (ToAgpl.no_copyright c); cbn [fst snd]; [|done].
    split; [|done]. intros H. apply (f_equal length) in H.
    rewrite !length_app, NEW_AGPL_HEADER_length in H. simpl in H. lia.
Qed.

Lemma process_file_readable p w c wr :
  disk w !! p = Some (File (Some c) wr) →
  ToAgpl.process_file p w =
    match (ToAgpl.rewrite c).1 with
    | ToAgpl.skipped => (ToAgpl.skipped, w)
    | o => if wr then (o, stored p (ToAgpl.rewrite c).2 w)
           else (ToAgpl.error, print (ErrorLine p) w)
    end.
Proof.
  intros H. unfold ToAgpl.process_file, ToAgpl.rewrite.
  rewrite (read_text_Some _ _ _ _ _ H).
  destruct (contains ToAgpl.OLD_MIT_HEADER c); cbn [fst snd].
  - destruct wr; [by rewrite (write_text_ok _ _ _ _ H)|by rewrite (write_text_ro _ _ _ _ _ H)].
  - destruct (ToAgpl.no_copyright c); cbn [fst snd]; [|done].
    destruct wr; [by rewrite (write_text_ok _ _ _ _ H)|by rewrite (write_text_ro _ _ _ _ _ H)].
Qed.

Lemma rewrite_outcome c : (ToAgpl.rewrite c).1 ≠ ToAgpl.error.
Proof.
  unfold ToAgpl.rewrite.
  by destruct (contains ToAgpl.OLD_MIT_HEADER c), (ToAgpl.no_copyright c).
Qed.

(** The same for a file on which a write may break after the open. *)
Lemma update_file_readable_gen p w c wr (b : option nat) :
  disk w !! p = Some (MkFile (Some c) wr b) →
  ToMit.update_file p w =
    if decide (ToMit.new_content c = c) then (false, w)
    else if wr && negb (bool_decide (is_Some b))
         then (true, stored p (ToMit.new_content c) w)
         else (false, print (ErrorLine p) (left_by_failure ToMit.new_content p w)).
Proof.
  intros H. unfold ToMit.update_file, left_by_failure.
  rewrite (read_text_Some _ _ _ _ _ H), H.
  case_decide; [done|]. destruct wr, b as [n|]; cbn [andb negb].
  - by rewrite (write_text_breaks _ _ _ _ _ H).
  - by rewrite (write_text_ok _ _ _ _ H).
  - by rewrite (write_text_ro _ _ _ _ _ H).
  - by rewrite (write_text_ro _ _ _ _ _ H).
Qed.

Lemma process_file_readable_gen p w c wr (b : option nat) :
  disk w !! p = Some (MkFile (Some c) wr b) →
  ToAgpl.process_file p w =
    match (ToAgpl.rewrite c).1 with
    | ToAgpl.skipped => (ToAgpl.skipped, w)
    | o => if wr && negb (bool_decide (is_Some b))
           then (o, stored p (ToAgpl.rewrite c).2 w)
           else (ToAgpl.error,
                 print (ErrorLine p) (left_by_failure (λ c, (ToAgpl.rewrite c).2) p w))
    end.
Proof.
  intros H. unfold ToAgpl.process_file, ToAgpl.rewrite, left_by_failure.
  rewrite (read_text_Some _ _ _ _ _ H), H.
  destruct (contains ToAgpl.OLD_MIT_HEADER c); cbn [fst snd].
  - destruct wr, b as [n|]; cbn [andb negb].
    + by rewrite (write_text_breaks _ _ _ _ _ H).
    + by rewrite (write_text_ok _ _ _ _ H).
    + by rewrite (write_text_ro _ _ _ _ _ H).
    + by rewrite (write_text_ro _ _ _ _ _ H).
  - destruct (ToAgpl.no_copyright c); cbn [fst snd]; [|done].
    destruct wr, b as [n|]; cbn [andb negb].
    + by rewrite (write_text_breaks _ _ _ _ _ H).
    + by rewrite (write_text_ok _ _ _ _ H).
    + by rewrite (write_text_ro _ _ _ _ _ H).
    + by rewrite (write_text_ro _ _ _ _ _ H).
Qed.

(** Only the text of the file whose write broke is touched by the failure. *)
Lemma left_by_failure_other (f : text → text) p w q :
  q ≠ p → disk (left_by_failure f p w) !! q = disk w !! q.
Proof.
  intros Hq. unfold left_by_failure.
  destruct (disk w !! p) as [[[c|] [] [n|]]|]; try done.
  cbn [disk]. by rewrite lookup_insert_ne.
Qed.

Lemma left_by_failure_log (f : text → text) p w :
  written (left_by_failure f p w) = written w ∧
  console (left_by_failure f p w) = console w.
Proof.
  unfold left_by_failure. by destruct (disk w !! p) as [[[c|] [] [n|]]|].
Qed.

(** Without an open that succeeded there is nothing to lose. *)
Lemma left_by_failure_same (f : text → text) p w :
  (∀ c n, disk w !! p ≠ Some (MkFile (Some c) true (Some n))) →
  left_by_failure f p w = w.
Proof.
  intros H. unfold left_by_failure.
  destruct (disk w !! p) as [[[c|] [] [n|]]|] eqn:E; try done. by destruct (H c n).
Qed.

Lemma left_by_failure_broken (f : text → text) p w c n :
  disk w !! p = Some (MkFile (Some c) true (Some n)) →
  disk (left_by_failure f p w) !! p = Some (MkFile (Some (take n (f c))) true (Some n)).
Proof.
  intros H. unfold left_by_failure. rewrite H. cbn [disk]. by rewrite lookup_insert_eq.
Qed.

End PerFile.

(** ** Writing only on change *)

(** C2.  A file that can be read is written back only if the new content
    differs from the one read: when the content stays the same the world is
    left as it was, a completed write means the content changed, and when
    the content changed and the file can be written, the new content is
    stored.  This holds for [update_file], which compares, and for
    [process_file], whose two writing branches always change the content. *)
Theorem C2_write_only_on_change (p : path) (w : world) (c : text) (wr : bool) :
  disk w !! p = Some (File (Some c) wr) →
  ((wrote p w (ToMit.update_file p w).2 → ToMit.new_content c ≠ c) ∧
   (ToMit.new_content c = c → (ToMit.update_file p w).2 = w) ∧
   (wr = true → ToMit.new_content c ≠ c →
    (ToMit.update_file p w).2 = stored p (ToMit.new_content c) w)) ∧
  ((wrote p w (ToAgpl.process_file p w).2 → (ToAgpl.rewrite c).2 ≠ c) ∧
   ((ToAgpl.rewrite c).2 = c → (ToAgpl.process_file p w).2 = w) ∧
   (wr = true → (ToAgpl.rewrite c).2 ≠ c →
    (ToAgpl.process_file p w).2 = stored p (ToAgpl.rewrite c).2 w)).
Proof.
  intros H. split.
  - rewrite (update_file_readable _ _ _ _ H).
    destruct (decide (ToMit.new_content c = c)) as [E|E]; cbn [snd].
    + split_and!; [|done..]. by intros []%not_wrote_same.
    + destruct wr; cbn [snd]; by split_and!.
  - rewrite (process_file_readable _ _ _ _ H).
    pose proof (rewrite_same_iff c) as Hs. pose proof (rewrite_outcome c) as Ho.
    destruct (ToAgpl.rewrite c).1 eqn:E; try done.
    + assert ((ToAgpl.rewrite c).2 ≠ c) by (intros ?%Hs; done).
      destruct wr; cbn [snd]; by split_and!.
    + assert ((ToAgpl.rewrite c).2 ≠ c) by (intros ?%Hs; done).
      destruct wr; cbn [snd]; by split_and!.
    + cbn [snd]. split_and!; try done.
      * by intros []%not_wrote_same.
      * intros _ Hne. destruct Hne. by apply Hs.
Qed.

(** A one-file world: [a.ts] holds the text [c] and can be written. *)
Lemma C2_witness :
  let p := lit "a.ts" in
  let c := lit "export const x = 1;" in
  let w := World {[ p := File (Some c) true ]} [] [] in
  disk w !! p = Some (File (Some c) true) ∧
  (ToMit.update_file p w).2 = stored p (ToMit.new_content c) w ∧
  (ToAgpl.process_file p w).2 = stored p (ToAgpl.rewrite c).2 w.
Proof.
  intros p c w.
  assert (H : disk w !! p = Some (File (Some c) true)) by (vm_compute; reflexivity).
  destruct (C2_write_only_on_change p w c true H) as [(_ & _ & H1) (_ & _ & H2)].
  split_and!; [exact H|apply H1|apply H2]; try reflexivity;
    intros E; apply (f_equal length) in E; vm_compute in E; discriminate E.
Defined.

(** ** Outcomes of [process_file] and [update_file] on a file without header *)

(** C7, as the code has it.  When the old MIT header is not in the content
    but ["Copyright"] or ["copyright"], in one of these two spellings, occurs
    in its first 1000 characters, [process_file] reports [skipped] and leaves
    the world, hence the file, as it was. *)
Theorem C7_ambiguous_header_skipped (p : path) (w : world) (c : text) :
  read_text p w = Some c →
  contains ToAgpl.OLD_MIT_HEADER c = false →
  contains (lit "Copyright") (take 1000 c) || contains (lit "copyright") (take 1000 c)
    = true →
  ToAgpl.process_file p w = (ToAgpl.skipped, w).
Proof.
  intros Hr Ho Hc. unfold ToAgpl.process_file, ToAgpl.no_copyright.
  rewrite Hr, Ho. apply orb_true_iff in Hc as [->| ->]; [done|].
  by rewrite andb_false_r.
Qed.

(** A file under an Apache notice. *)
Lemma C7_witness :
  let p := lit "src/lib/vendor.ts" in
  let c := lit "// Copyright 2020 The Authors. Apache-2.0" ++ nl :: lit "export {};" in
  let w := World {[ p := File (Some c) true ]} [] [] in
  ToAgpl.process_file p w = (ToAgpl.skipped, w).
Proof.
  intros p c w. apply (C7_ambiguous_header_skipped p w c); reflexivity.
Defined.

(** A file under a notice in capitals: the probe of [process_file] does not
    see the word, and the file gets the AGPL header on top of the notice. *)
Lemma C7_counterexample :
  let p := lit "src/lib/vendor.ts" in
  let c := lit "// COPYRIGHT 2020 THE AUTHORS. APACHE-2.0" ++ nl :: lit "export {};" in
  let w := World {[ p := File (Some c) true ]} [] [] in
  ¬ (read_text p w = Some c →
     contains ToAgpl.OLD_MIT_HEADER c = false →
     contains (lit "COPYRIGHT") (take 1000 c) = true →
     ToAgpl.process_file p w = (ToAgpl.skipped, w)) ∧
  ToAgpl.process_file p w
  = (ToAgpl.added, stored p (ToAgpl.NEW_AGPL_HEADER ++ [nl; nl] ++ c) w).
Proof.
  intros p c w.
  assert (E : ToAgpl.process_file p w
              = (ToAgpl.added, stored p (ToAgpl.NEW_AGPL_HEADER ++ [nl; nl] ++ c) w)).
  { apply (process_file_readable p w c true). vm_compute. reflexivity. }
  split; [|exact E].
  intros H. rewrite E in H. specialize (H eq_refl eq_refl eq_refl). discriminate H.
Qed.

(** C9.  A content without recognised header and without leading marker gets
    the replacement header, one blank line and then the content as it was:
    [update_file] when neither pattern is found and the content does not
    start with ['use client'], [process_file] when the old header is absent
    and no copyright word is in the first 1000 characters. *)
Theorem C9_verbatim_prepend (p : path) (w : world) (c : text) :
  disk w !! p = Some (File (Some c) true) →
  (search ToMit.AGPL_PATTERN c = None →
   search ToMit.COPYRIGHT_PATTERN c = None →
   startswith c ToMit.USE_CLIENT = false →
   ToMit.new_content c = ToMit.NEW_HEADER ++ [nl; nl] ++ c ∧
   ToMit.update_file p w = (true, stored p (ToMit.NEW_HEADER ++ [nl; nl] ++ c) w)) ∧
  (contains ToAgpl.OLD_MIT_HEADER c = false →
   ToAgpl.no_copyright c = true →
   ToAgpl.rewrite c = (ToAgpl.added, ToAgpl.NEW_AGPL_HEADER ++ [nl; nl] ++ c) ∧
   ToAgpl.process_file p w =
     (ToAgpl.added, stored p (ToAgpl.NEW_AGPL_HEADER ++ [nl; nl] ++ c) w)).
Proof.
  intros H. split.
  - intros Ha Hc Hm.
    assert (E : ToMit.new_content c = ToMit.NEW_HEADER ++ [nl; nl] ++ c).
    { unfold ToMit.new_content. by rewrite Ha, Hc, Hm. }
    split; [done|]. rewrite (update_file_readable _ _ _ _ H), E.
    case_decide as Hd; [|done]. apply (f_equal length) in Hd.
    rewrite !length_app in Hd. simpl in Hd. lia.
  - intros Ho Hc.
    assert (E : ToAgpl.rewrite c = (ToAgpl.added, ToAgpl.NEW_AGPL_HEADER ++ [nl; nl] ++ c)).
    { unfold ToAgpl.rewrite. by rewrite Ho, Hc. }
    split; [done|]. by rewrite (process_file_readable _ _ _ _ H), E.
Qed.

Lemma C9_witness :
  let p := lit "src/app/page.tsx" in
  let c := lit "export default function Page() { return null; }" in
  let w := World {[ p := File (Some c) true ]} [] [] in
  ToMit.update_file p w = (true, stored p (ToMit.NEW_HEADER ++ [nl; nl] ++ c) w) ∧
  ToAgpl.process_file p w =
    (ToAgpl.added, stored p (ToAgpl.NEW_AGPL_HEADER ++ [nl; nl] ++ c) w).
Proof.
  intros p c w.
  assert (H : disk w !! p = Some (File (Some c) true)) by (vm_compute; reflexivity).
  destruct (C9_verbatim_prepend p w c H) as [H1 H2]. split.
  - apply H1; reflexivity.
  - apply H2; reflexivity.
Defined.

(** ** Failures and the two scans *)

Section Scans.

Implicit Types (p : path) (w : world) (files : list path).

Lemma error_lines_snoc out l :
  error_lines (out ++ [l]) = (error_lines out + if is_error_line l then 1 else 0)%nat.
Proof.
  unfold error_lines. rewrite List.filter_app, length_app. simpl.
  by destruct (is_error_line l).
Qed.

Lemma error_lines_print l w :
  error_lines (console (print l w))
  = (error_lines (console w) + if is_error_line l then 1 else 0)%nat.
Proof. apply error_lines_snoc. Qed.

(** A file on which the operation fails: the exception is caught and the
    path is logged; of the files only the one whose write broke after the
    open has changed. *)
Lemma process_file_fails p w :
  fails (λ c, (ToAgpl.rewrite c).2) p w →
  ToAgpl.process_file p w
  = (ToAgpl.error, print (ErrorLine p) (left_by_failure (λ c, (ToAgpl.rewrite c).2) p w)).
Proof.
  unfold fails. destruct (disk w !! p) as [[[c|] wr b]|] eqn:E.
  - intros [Hne Hw]. rewrite (process_file_readable_gen _ _ _ _ _ E).
    assert (Hb : wr && negb (bool_decide (is_Some b)) = false).
    { destruct Hw as [->|Hb]; [done|]. rewrite (bool_decide_eq_true_2 _ Hb).
      by rewrite andb_false_r. }
    rewrite Hb. destruct (ToAgpl.rewrite c).1 eqn:Eo; try done.
    destruct Hne. by apply rewrite_same_iff.
  - intros _. unfold ToAgpl.process_file, read_text, left_by_failure. by rewrite E.
  - intros _. unfold ToAgpl.process_file, read_text, left_by_failure. by rewrite E.
Qed.

Lemma process_file_ok p w :
  ¬ fails (λ c, (ToAgpl.rewrite c).2) p w →
  (ToAgpl.process_file p w).1 ≠ ToAgpl.error ∧
  console (ToAgpl.process_file p w).2 = console w.
Proof.
  unfold fails. destruct (disk w !! p) as [[[c|] wr b]|] eqn:E; [|by intros []..].
  intros Hn. rewrite (process_file_readable_gen _ _ _ _ _ E).
  pose proof (rewrite_outcome c) as Ho.
  assert (Hb : (ToAgpl.rewrite c).2 ≠ c → wr && negb (bool_decide (is_Some b)) = true).
  { intros Hne. destruct wr; [|destruct Hn; by split; [|left]].
    destruct b as [n|]; [|done]. destruct Hn. by split; [|right]. }
  destruct (ToAgpl.rewrite c).1 eqn:Eo; try done; rewrite Hb; try done;
    intros ?%rewrite_same_iff; congruence.
Qed.

Lemma update_file_fails p w :
  fails ToMit.new_content p w →
  ToMit.update_file p w
  = (false, print (ErrorLine p) (left_by_failure ToMit.new_content p w)).
Proof.
  unfold fails. destruct (disk w !! p) as [[[c|] wr b]|] eqn:E.
  - intros [Hne Hw]. rewrite (update_file_readable_gen _ _ _ _ _ E).
    case_decide; [done|].
    destruct Hw as [->|Hb]; [done|]. rewrite (bool_decide_eq_true_2 _ Hb).
    by rewrite andb_false_r.
  - intros _. unfold ToMit.update_file, read_text, left_by_failure. by rewrite E.
  - intros _. unfold ToMit.update_file, read_text, left_by_failure. by rewrite E.
Qed.

Lemma update_file_ok p w :
  ¬ fails ToMit.new_content p w →
  console (ToMit.update_file p w).2 = console w.
Proof.
  unfold fails. destruct (disk w !! p) as [[[c|] wr b]|] eqn:E; [|by intros []..].
  intros Hn. rewrite (update_file_readable_gen _ _ _ _ _ E).
  case_decide; [done|]. destruct wr; [|destruct Hn; by split; [|left]].
  destruct b as [n|]; [|done]. destruct Hn. by split; [|right].
Qed.

(** Whatever the file, [process_file] logs an error line exactly when it
    reports [error]. *)
Lemma process_file_console p w :
  console (ToAgpl.process_file p w).2
  = console w ++ match (ToAgpl.process_file p w).1 with
                 | ToAgpl.error => [ErrorLine p]
                 | _ => []
                 end.
Proof.
  unfold ToAgpl.process_file, write_text.
  destruct (read_text p w) as [c|]; [|done].
  destruct (contains ToAgpl.OLD_MIT_HEADER c).
  - destruct (disk w !! p) as [[d [] [n|]]|]; cbn [fst snd console]; by rewrite ?app_nil_r.
  - destruct (ToAgpl.no_copyright c); [|by rewrite app_nil_r].
    destruct (disk w !! p) as [[d [] [n|]]|]; cbn [fst snd console]; by rewrite ?app_nil_r.
Qed.

(** The [errors] counter grows by the number of error lines logged. *)
Lemma scan_errors files i total c w :
  (error_lines (console (ToAgpl.scan files i total c w).2) + ToAgpl.errors c
   = error_lines (console w) + ToAgpl.errors (ToAgpl.scan files i total c w).1)%nat.
Proof.
  revert i c w. induction files as [|p files IH]; intros i c w; [done|].
  cbn [ToAgpl.scan].
  set (w0 := if (i mod 10 =? 0)%nat then print (ProgressLine i total) w else w).
  assert (E0 : error_lines (console w0) = error_lines (console w)).
  { unfold w0. destruct (i mod 10 =? 0)%nat; [|done].
    rewrite error_lines_print. simpl. lia. }
  pose proof (process_file_console p w0) as Hc.
  destruct (ToAgpl.process_file p w0) as [result w1]. cbn [fst snd] in Hc.
  destruct result;
    match goal with
    | |- context [ToAgpl.scan files ?j total ?c' ?w'] =>
        specialize (IH j c' w'); revert IH;
        generalize (ToAgpl.scan files j total c' w')
    end; intros r IH; cbn [ToAgpl.errors] in IH;
    rewrite ?error_lines_print, Hc in IH; cbn [is_error_line] in IH;
    rewrite ?app_nil_r, ?error_lines_snoc in IH; cbn [is_error_line] in IH; lia.
Qed.

Lemma scan_step_fails p files i total c w :
  fails (λ c, (ToAgpl.rewrite c).2) p w →
  ToAgpl.scan (p :: files) i total c w
  = ToAgpl.scan files (S i) total
      (ToAgpl.Counters (ToAgpl.replaced_count c) (ToAgpl.added_count c)
                       (ToAgpl.skipped_count c) (S (ToAgpl.errors c)))
      (print (ErrorLine p)
             (left_by_failure (λ c, (ToAgpl.rewrite c).2) p
                (if (i mod 10 =? 0)%nat then print (ProgressLine i total) w else w))).
Proof.
  intros H. cbn [ToAgpl.scan].
  rewrite process_file_fails; [done|].
  by destruct (i mod 10 =? 0)%nat.
Qed.

Lemma ToMit_scan_step_fails p files total updated w :
  ToMit.excluded p = false →
  fails ToMit.new_content p w →
  ToMit.scan (p :: files) total updated w
  = ToMit.scan files (S total) updated
      (print (ErrorLine p) (left_by_failure ToMit.new_content p w)).
Proof.
  intros He H. cbn [ToMit.scan]. by rewrite He, update_file_fails.
Qed.

End Scans.

(** ** Exit status *)

(** C5, as the code has it.  [update_license_headers.py] exits with status 0
    or 1, with 0 exactly when its [errors] counter is 0, and the counter is
    the number of error lines the run logged.  [update-license-headers.py]
    keeps no error count and exits with status 0 on every run. *)
Theorem C5_exit_status (files : list path) (w : world) :
  ((ToAgpl.main files w).1.1 = 0%nat ∨ (ToAgpl.main files w).1.1 = 1%nat) ∧
  ((ToAgpl.main files w).1.1 = 0%nat ↔ ToAgpl.errors (ToAgpl.main files w).1.2 = 0%nat) ∧
  error_lines (console (ToAgpl.main files w).2)
    = (error_lines (console w) + ToAgpl.errors (ToAgpl.main files w).1.2)%nat ∧
  (ToMit.main files w).1 = 0%nat.
Proof.
  unfold ToAgpl.main, ToMit.main.
  pose proof (scan_errors files 1 (length files) (ToAgpl.Counters 0 0 0 0) w) as He.
  destruct (ToAgpl.scan files 1 (length files) (ToAgpl.Counters 0 0 0 0) w) as [c w1].
  cbn [fst snd ToAgpl.errors] in He.
  destruct (ToMit.scan files 0 0 w) as [[total updated] w'].
  assert (El : ∀ l w2, is_error_line l = false →
               error_lines (console (print l w2)) = error_lines (console w2)).
  { intros l w2 Hl. rewrite error_lines_print, Hl. lia. }
  destruct (0 <? ToAgpl.errors c)%nat eqn:E; cbn [fst snd].
  - apply Nat.ltb_lt in E. split_and!; [by right|split; intros; [done|lia]| |done].
    destruct (0 <? _)%nat; rewrite !El by done; lia.
  - apply Nat.ltb_ge in E. split_and!; [by left|split; intros; [lia|done]| |done].
    destruct (0 <? _)%nat; rewrite !El by done; lia.
Qed.

(** One file that cannot be decoded: [update-license-headers.py] logs the
    error and still exits with status 0. *)
Lemma C5_counterexample :
  let p := lit "src/a.ts" in
  let w := World {[ p := File None true ]} [] [] in
  ¬ ((0 < error_lines (console (ToMit.main [p] w).2))%nat → (ToMit.main [p] w).1 ≠ 0%nat).
Proof.
  intros p w H. apply H; [vm_compute; lia|reflexivity].
Qed.

(** ** Failure isolation *)

(** C6, as the code has it.  A file that cannot be read, or whose write
    fails when its content changes, makes the per-file operation return
    after logging one line with the path, and the scan goes on with the
    files that remain.  [update_license_headers.py] adds one to its [errors]
    counter; [update-license-headers.py] counts the file as processed and
    not updated, and has no error counter.  The log of completed writes, the
    rest of the console and every other file are untouched.  The file itself
    is as it was when the read failed or the open for writing was refused;
    when the write broke after the open, which had emptied the file, it holds
    the part of the new content that reached it. *)
Theorem C6_failure_isolation (p : path) (files : list path) (w : world) :
  (fails (λ c, (ToAgpl.rewrite c).2) p w →
   ToAgpl.process_file p w
   = (ToAgpl.error,
      print (ErrorLine p) (left_by_failure (λ c, (ToAgpl.rewrite c).2) p w)) ∧
   ∀ i total c,
     ToAgpl.scan (p :: files) i total c w
     = ToAgpl.scan files (S i) total
         (ToAgpl.Counters (ToAgpl.replaced_count c) (ToAgpl.added_count c)
                          (ToAgpl.skipped_count c) (S (ToAgpl.errors c)))
         (print (ErrorLine p)
            (left_by_failure (λ c, (ToAgpl.rewrite c).2) p
               (if (i mod 10 =? 0)%nat then print (ProgressLine i total) w else w)))) ∧
  (fails ToMit.new_content p w →
   ToMit.excluded p = false →
   ToMit.update_file p w
   = (false, print (ErrorLine p) (left_by_failure ToMit.new_content p w)) ∧
   ∀ total updated,
     ToMit.scan (p :: files) total updated w
     = ToMit.scan files (S total) updated
         (print (ErrorLine p) (left_by_failure ToMit.new_content p w))) ∧
  (∀ f : text → text,
     written (left_by_failure f p w) = written w ∧
     console (left_by_failure f p w) = console w ∧
     (∀ q, q ≠ p → disk (left_by_failure f p w) !! q = disk w !! q) ∧
     ((∀ c n, disk w !! p ≠ Some (MkFile (Some c) true (Some n))) →
      left_by_failure f p w = w) ∧
     (∀ c n, disk w !! p = Some (MkFile (Some c) true (Some n)) →
      disk (left_by_failure f p w) !! p
      = Some (MkFile (Some (take n (f c))) true (Some n)))).
Proof.
  split_and!.
  - intros H. split; [by apply process_file_fails|].
    intros i total c. by apply scan_step_fails.
  - intros H He. split; [by apply update_file_fails|].
    intros total updated. by apply ToMit_scan_step_fails.
  - intros f. split_and!.
    + apply left_by_failure_log.
    + apply left_by_failure_log.
    + intros q Hq. by apply left_by_failure_other.
    + apply left_by_failure_same.
    + apply left_by_failure_broken.
Qed.

(** A file on which the write breaks after four characters, followed by a
    plain one: the first is left with the four characters that reached it
    and counted as an error by [update_license_headers.py], as processed by
    [update-license-headers.py]; the second is still processed, by either
    script. *)
Lemma C6_witness :
  let p := lit "src/a.ts" in
  let q := lit "src/b.ts" in
  let w := World {[ p := MkFile (Some (lit "let a;")) true (Some 4%nat);
                    q := File (Some (lit "let b;")) true ]} [] [] in
  (ToAgpl.scan [p; q] 1 2 (ToAgpl.Counters 0 0 0 0) w).1 = ToAgpl.Counters 0 1 0 1 ∧
  disk (ToAgpl.scan [p; q] 1 2 (ToAgpl.Counters 0 0 0 0) w).2 !! p
    = Some (MkFile (Some (lit "/*" ++ nl :: lit " ")) true (Some 4%nat)) ∧
  (ToMit.scan [p; q] 0 0 w).1 = (2%nat, 1%nat) ∧
  disk (ToMit.scan [p; q] 0 0 w).2 !! p
    = Some (MkFile (Some (lit "/**" ++ [nl])) true (Some 4%nat)).
Proof.
  intros p q w.
  destruct (C6_failure_isolation p [q] w) as (H1 & H2 & _).
  destruct H1 as [_ H1].
  { vm_compute. split; [intros E; discriminate E|right; by eexists]. }
  destruct H2 as [_ H2]; [|reflexivity|].
  { vm_compute. split; [intros E; discriminate E|right; by eexists]. }
  rewrite H1, H2. split_and!; vm_compute; reflexivity.
Defined.

(** The counters of [update-license-headers.py] do not tell a failed file
    from one that needed no change: no function of them is the number of
    errors. *)
Lemma C6_counterexample :
  ¬ ∃ f : nat * nat → nat, ∀ (files : list path) (d : gmap path file),
      f (ToMit.scan files 0 0 (World d [] [])).1
      = error_lines (console (ToMit.scan files 0 0 (World d [] [])).2).
Proof.
  intros [f H].
  pose proof (H [lit "src/a.ts"] {[ lit "src/a.ts" := File None true ]}) as H1.
  pose proof (H [lit "src/a.ts"]
                {[ lit "src/a.ts" :=
                     File (Some (ToMit.NEW_HEADER ++ [nl; nl] ++ lit "let a;")) true ]}) as H2.
  vm_compute in H1, H2. congruence.
Qed.

(** ** The matcher *)

Section Matcher.

Implicit Types (r : regex) (s t repl : text) (a : atom) (c : char).

Lemma rmatch_One a r c s :
  rmatch (One a :: r) (c :: s) = if atom_ok a c then S <$> rmatch r s else None.
Proof. done. Qed.

Lemma rmatch_Star a r s :
  rmatch (Star a :: r) s =
    match s with
    | c :: s' =>
        if atom_ok a c then
          match rmatch (Star a :: r) s' with
          | Some n => Some (S n)
          | None => rmatch r s
          end
        else rmatch r s
    | [] => rmatch r s
    end.
Proof. by destruct s. Qed.

Lemma rmatch_StarLazy a r s :
  rmatch (StarLazy a :: r) s =
    match rmatch r s with
    | Some n => Some n
    | None =>
        match s with
        | c :: s' => if atom_ok a c then S <$> rmatch (StarLazy a :: r) s' else None
        | [] => None
        end
    end.
Proof. by destruct s. Qed.

Lemma rmatch_Opt a r s :
  rmatch (Opt a :: r) s =
    match s with
    | c :: s' =>
        if atom_ok a c then
          match rmatch r s' with
          | Some n => Some (S n)
          | None => rmatch r s
          end
        else rmatch r s
    | [] => rmatch r s
    end.
Proof. done. Qed.

Lemma denotes_star_inv a r t :
  denotes (Star a :: r) t →
  ∃ u t', t = u ++ t' ∧ forallb (atom_ok a) u = true ∧ denotes r t'.
Proof. inversion 1; subst; eauto. Qed.

Lemma denotes_lazy_inv a r t :
  denotes (StarLazy a :: r) t →
  ∃ u t', t = u ++ t' ∧ forallb (atom_ok a) u = true ∧ denotes r t'.
Proof. inversion 1; subst; eauto. Qed.

Lemma denotes_one_inv a r t :
  denotes (One a :: r) t →
  ∃ c t', t = c :: t' ∧ atom_ok a c = true ∧ denotes r t'.
Proof. inversion 1; subst; eauto. Qed.

Lemma denotes_opt_inv a r t :
  denotes (Opt a :: r) t →
  ∃ u t', t = u ++ t' ∧ (u = [] ∨ ∃ c, u = [c] ∧ atom_ok a c = true) ∧ denotes r t'.
Proof.
  inversion 1; subst.
  - exists [], t. eauto.
  - eexists [_], _. split_and!; [done| |done]. right. eauto.
Qed.

(** What the engine finds is a text of the pattern, at the start of [s]. *)
Lemma rmatch_sound r s n :
  rmatch r s = Some n → denotes r (take n s) ∧ (n ≤ length s)%nat.
Proof.
  revert s n. induction r as [|[a|a|a|a] r IH]; intros s n.
  - intros [= <-]. split; [constructor|lia].
  - destruct s as [|c s]; [done|]. rewrite rmatch_One.
    destruct (atom_ok a c) eqn:E; [|done].
    destruct (rmatch r s) as [m|] eqn:Em; [|done]. intros [= <-].
    destruct (IH _ _ Em). split; [by constructor|simpl; lia].
  - rewrite rmatch_Opt. destruct s as [|c s].
    + intros H. destruct (IH _ _ H). split; [by constructor|done].
    + destruct (atom_ok a c) eqn:E.
      * destruct (rmatch r s) as [m|] eqn:Em.
        -- intros [= <-]. destruct (IH _ _ Em). split; [by constructor|simpl; lia].
        -- intros H. destruct (IH _ _ H). split; [by constructor|done].
      * intros H. destruct (IH _ _ H). split; [by constructor|done].
  - revert n. induction s as [|c s IHs]; intros n; rewrite rmatch_Star.
    + intros H. destruct (IH _ _ H). split; [|done].
      by apply (denotes_star a r []).
    + assert (Hk : rmatch r (c :: s) = Some n →
                   denotes (Star a :: r) (take n (c :: s)) ∧ (n ≤ length (c :: s))%nat).
      { intros H. destruct (IH _ _ H). split; [|done]. by apply (denotes_star a r []). }
      destruct (atom_ok a c) eqn:E; [|done].
      destruct (rmatch (Star a :: r) s) as [m|] eqn:Em; [|done].
      intros [= <-]. destruct (IHs _ eq_refl) as [Hd Hl]. split; [|simpl; lia].
      apply denotes_star_inv in Hd as (u & t & Heq & Hu & Ht).
      simpl. rewrite Heq. apply (denotes_star a r (c :: u)); [|done].
      simpl. by rewrite E.
  - revert n. induction s as [|c s IHs]; intros n; rewrite rmatch_StarLazy.
    + destruct (rmatch r []) as [m|] eqn:Em; [|done]. intros [= <-].
      destruct (IH _ _ Em). split; [|done]. by apply (denotes_lazy a r []).
    + destruct (rmatch r (c :: s)) as [m|] eqn:Em.
      * intros [= <-]. destruct (IH _ _ Em). split; [|done].
        by apply (denotes_lazy a r []).
      * destruct (atom_ok a c) eqn:E; [|done].
        destruct (rmatch (StarLazy a :: r) s) as [k|] eqn:Ek; [|done].
        intros [= <-]. destruct (IHs _ eq_refl) as [Hd Hl]. split; [|simpl; lia].
        apply denotes_lazy_inv in Hd as (u & t & Heq & Hu & Ht).
        simpl. rewrite Heq. apply (denotes_lazy a r (c :: u)); [|done].
        simpl. by rewrite E.
Qed.

(** Where the pattern has a text at the start of [s], the engine finds a
    match there (not always that one). *)
Lemma rmatch_complete r t :
  denotes r t → ∀ rest, is_Some (rmatch r (t ++ rest)).
Proof.
  induction 1 as [|a r c t Hc _ IH|a r t _ IH|a r c t Hc _ IH
                  |a r u t Hu _ IH|a r u t Hu _ IH]; intros rest.
  - by eexists.
  - simpl. rewrite Hc. destruct (IH rest) as [n ->]. by eexists.
  - rewrite rmatch_Opt. destruct (IH rest) as [n Hn].
    destruct (t ++ rest) as [|c s] eqn:E; [by eexists|].
    destruct (atom_ok a c); [|by eexists].
    destruct (rmatch r s); by eexists.
  - rewrite rmatch_Opt. cbn [app]. rewrite Hc. destruct (IH rest) as [n ->]. by eexists.
  - assert (H0 : ∀ s, is_Some (rmatch r s) → is_Some (rmatch (Star a :: r) s)).
    { intros s [n Hn]. rewrite rmatch_Star. destruct s as [|c s]; [by eexists|].
      destruct (atom_ok a c); [|by eexists].
      destruct (rmatch (Star a :: r) s); by eexists. }
    rewrite <- app_assoc. induction u as [|c u IHu]; [apply H0, IH|].
    simpl in Hu. apply andb_true_iff in Hu as [Hc Hu].
    cbn [app]. rewrite rmatch_Star, Hc. destruct (IHu Hu) as [n ->]. by eexists.
  - rewrite <- app_assoc. induction u as [|c u IHu].
    + rewrite rmatch_StarLazy. cbn [app]. destruct (IH rest) as [n ->]. by eexists.
    + simpl in Hu. apply andb_true_iff in Hu as [Hc Hu].
      cbn [app]. rewrite rmatch_StarLazy.
      destruct (rmatch r (c :: u ++ t ++ rest)); [by eexists|].
      rewrite Hc. destruct (IHu Hu) as [n ->]. by eexists.
Qed.

Lemma rmatch_le r s n : rmatch r s = Some n → (n ≤ length s)%nat.
Proof. by intros []%rmatch_sound. Qed.

(** A pattern that starts with a character does not match the empty text. *)
Lemma rmatch_One_pos a r s n : rmatch (One a :: r) s = Some n → (0 < n)%nat.
Proof.
  destruct s as [|c s]; [done|]. rewrite rmatch_One.
  destruct (atom_ok a c); [|done]. destruct (rmatch r s); [|done].
  intros [= <-]. lia.
Qed.

Lemma search_cons r c s :
  search r (c :: s) =
    match rmatch r (c :: s) with
    | Some n => Some (0%nat, n)
    | None => prod_map S id <$> search r s
    end.
Proof. done. Qed.

(** [search] returns the leftmost position at which the pattern matches. *)
Lemma search_Some r s i n :
  search r s = Some (i, n) →
  rmatch r (drop i s) = Some n ∧ (i ≤ length s)%nat ∧
  ∀ j, (j < i)%nat → rmatch r (drop j s) = None.
Proof.
  revert i. induction s as [|c s IH]; intros i.
  - simpl. destruct (rmatch r []) eqn:E; [|done]. intros [= <- <-].
    split_and!; [done|done|lia].
  - rewrite search_cons. destruct (rmatch r (c :: s)) eqn:E.
    + intros [= <- <-]. split_and!; [done|simpl; lia|lia].
    + destruct (search r s) as [[i' n']|] eqn:Es; [|done].
      intros [= <- <-]. destruct (IH _ eq_refl) as (H1 & H2 & H3).
      split_and!; [done|simpl; lia|]. intros [|j] Hj; [done|]. apply H3. lia.
Qed.

Lemma search_None r s j :
  search r s = None → rmatch r (drop j s) = None.
Proof.
  revert j. induction s as [|c s IH]; intros j.
  - simpl. rewrite drop_nil. by destruct (rmatch r []).
  - rewrite search_cons. destruct (rmatch r (c :: s)) eqn:E; [done|].
    destruct (search r s) eqn:Es; [done|]. intros _.
    destruct j; [done|]. by apply IH.
Qed.

(** A match anywhere in the content is found, however far from the start. *)
Lemma search_app r pre s :
  is_Some (rmatch r s) → is_Some (search r (pre ++ s)).
Proof.
  intros [n Hn]. induction pre as [|c pre IH].
  - destruct s; simpl; rewrite Hn; by eexists.
  - simpl app. rewrite search_cons. destruct (rmatch r (c :: pre ++ s)); [by eexists|].
    destruct IH as [x ->]. by eexists.
Qed.

Lemma search_app_None r pre s :
  search r (pre ++ s) = None → search r s = None.
Proof.
  induction pre as [|c pre IH]; [done|]. simpl app. rewrite search_cons.
  destruct (rmatch r (c :: pre ++ s)); [done|].
  destruct (search r (pre ++ s)); [done|]. auto.
Qed.

Lemma sub_from_skip r repl k s :
  (k ≤ length s)%nat → sub_from r repl k s = sub_from r repl 0 (drop k s).
Proof.
  revert s. induction k as [|k IH]; intros s Hk; [done|].
  destruct s as [|c s]; [simpl in Hk; lia|]. apply IH. simpl in Hk. lia.
Qed.

Lemma sub_cons_None r repl c s :
  rmatch r (c :: s) = None → sub r repl (c :: s) = c :: sub r repl s.
Proof. unfold sub. simpl. by intros ->. Qed.

(** The leftmost match is replaced and the scan resumes right after it. *)
Lemma sub_search r repl s i n :
  search r s = Some (i, n) → (0 < n)%nat →
  sub r repl s = take i s ++ repl ++ sub r repl (drop (i + n) s).
Proof.
  revert i. induction s as [|c s IH]; intros i Hs Hn.
  - apply search_Some in Hs as (H & _ & _). apply rmatch_le in H.
    rewrite drop_nil in H. simpl in H. lia.
  - rewrite search_cons in Hs. destruct (rmatch r (c :: s)) as [m|] eqn:E.
    + injection Hs as <- <-. destruct m as [|m]; [lia|].
      unfold sub. cbn [sub_from]. rewrite E. simpl. f_equal.
      apply sub_from_skip. apply rmatch_le in E. simpl in E. lia.
    + destruct (search r s) as [[i' n']|] eqn:Es; [|done].
      injection Hs as <- <-. rewrite sub_cons_None by done.
      simpl. f_equal. by apply IH.
Qed.

(** Without a match the text is returned as it is. *)
Lemma sub_None r repl s : search r s = None → sub r repl s = s.
Proof.
  induction s as [|c s IH].
  - unfold sub. simpl. by destruct (rmatch r []).
  - rewrite search_cons. destruct (rmatch r (c :: s)) eqn:E; [done|].
    destruct (search r s); [done|]. intros _. rewrite sub_cons_None by done.
    by rewrite IH.
Qed.

End Matcher.

(** ** The marker line *)

Section Marker.

Implicit Types (rest s t p : text).

Lemma split_nl1_line (l0 : text) rest :
  nl ∉ l0 → split_nl1 (l0 ++ nl :: rest) = (l0, Some rest).
Proof.
  induction l0 as [|a l0 IH]; intros H.
  - done.
  - apply not_elem_of_cons in H as [Ha H]. cbn [app split_nl1].
    apply N.eqb_neq in Ha. rewrite N.eqb_sym, Ha. by rewrite IH.
Qed.

Lemma split_nl1_single (l0 : text) : nl ∉ l0 → split_nl1 l0 = (l0, None).
Proof.
  induction l0 as [|a l0 IH]; intros H; [done|].
  apply not_elem_of_cons in H as [Ha H]. cbn [split_nl1].
  apply N.eqb_neq in Ha. rewrite N.eqb_sym, Ha. by rewrite IH.
Qed.

Lemma startswith_app_l s t p :
  startswith s p = true → startswith (s ++ t) p = true.
Proof. intros [u ->]%startswith_inv. rewrite <- app_assoc. apply startswith_app. Qed.

End Marker.

(** C8, as the code has it.  [update-license-headers.py]: a content whose
    first line starts with ['use client'] and in which neither pattern is
    found keeps that line as its first, followed by a blank line, the header,
    a blank line and the rest; the example of the specification holds.
    [update_license_headers.py] knows no marker: it puts its header, a blank
    line and then the whole content, marker included. *)
Theorem C8_marker_line (l0 rest : text) :
  startswith l0 ToMit.USE_CLIENT = true →
  nl ∉ l0 →
  (search ToMit.AGPL_PATTERN (l0 ++ nl :: rest) = None →
   search ToMit.COPYRIGHT_PATTERN (l0 ++ nl :: rest) = None →
   ToMit.new_content (l0 ++ nl :: rest)
   = l0 ++ [nl; nl] ++ ToMit.NEW_HEADER ++ [nl; nl] ++ rest) ∧
  (search ToMit.AGPL_PATTERN l0 = None →
   search ToMit.COPYRIGHT_PATTERN l0 = None →
   ToMit.new_content l0 = l0 ++ [nl; nl] ++ ToMit.NEW_HEADER ++ [nl; nl]) ∧
  ToMit.new_content (lit "'use client'" ++ nl :: lit "export const x = 1;")
  = lit "'use client'" ++ [nl; nl] ++ ToMit.NEW_HEADER ++ [nl; nl]
    ++ lit "export const x = 1;" ∧
  (contains ToAgpl.OLD_MIT_HEADER (l0 ++ nl :: rest) = false →
   ToAgpl.no_copyright (l0 ++ nl :: rest) = true →
   (ToAgpl.rewrite (l0 ++ nl :: rest)).2
   = ToAgpl.NEW_AGPL_HEADER ++ [nl; nl] ++ l0 ++ nl :: rest).
Proof.
  intros Hm Hl. split_and!.
  - intros Ha Hc. unfold ToMit.new_content.
    rewrite Ha, Hc, (startswith_app_l _ _ _ Hm), split_nl1_line by done. done.
  - intros Ha Hc. unfold ToMit.new_content.
    rewrite Ha, Hc, Hm, split_nl1_single by done. done.
  - vm_compute. reflexivity.
  - intros Ho Hc. unfold ToAgpl.rewrite. by rewrite Ho, Hc.
Qed.

Lemma C8_witness :
  ToMit.new_content (lit "'use client';" ++ nl :: lit "import x from 'y';")
  = lit "'use client';" ++ [nl; nl] ++ ToMit.NEW_HEADER ++ [nl; nl]
    ++ lit "import x from 'y';".
Proof.
  refine (proj1 (C8_marker_line (lit "'use client';") (lit "import x from 'y';") _ _) _ _).
  - reflexivity.
  - vm_compute. intros H. repeat (apply elem_of_cons in H as [H|H]; [discriminate H|]).
    by apply elem_of_nil in H.
  - reflexivity.
  - reflexivity.
Defined.

(** The example of the specification under [update_license_headers.py]: the
    header comes first and the marker is no longer the first line. *)
Lemma C8_counterexample :
  let c := lit "'use client'" ++ nl :: lit "export const x = 1;" in
  ¬ ((ToAgpl.rewrite c).2
     = lit "'use client'" ++ [nl; nl] ++ ToAgpl.NEW_AGPL_HEADER ++ [nl; nl]
       ++ lit "export const x = 1;"
     ∨ startswith (ToAgpl.rewrite c).2 (lit "'use client'") = true).
Proof.
  intros c [H|H].
  - apply (f_equal (take 1)) in H. vm_compute in H. discriminate H.
  - vm_compute in H. discriminate H.
Qed.

(** ** Occurrences across a seam *)

Section Seam.

Implicit Types (s t p needle hay pre post : text).

(** An occurrence in [a ++ b] lies in [a], lies in [b], or straddles the
    seam: a proper prefix of the needle ends [a] and the rest starts [b]. *)
Lemma contains_app_inv needle (a b : text) :
  contains needle (a ++ b) = true →
  contains needle a = true ∨ contains needle b = true ∨
  ∃ k a', (0 < k < length needle)%nat ∧ a = a' ++ take k needle ∧
          startswith b (drop k needle) = true.
Proof.
  induction a as [|x a IH]; [by right; left|].
  cbn [app]. rewrite contains_cons. intros [H|H]%orb_true_iff.
  - destruct (decide (length needle ≤ length (x :: a))%nat) as [Hl|Hl].
    + left. apply contains_startswith.
      by apply (startswith_shorter (x :: a) b).
    + right; right. exists (length (x :: a)), [].
      apply startswith_inv in H as [t Ht].
      assert (E : take (length (x :: a)) needle = x :: a).
      { rewrite <- (take_app_le needle t) by lia. rewrite <- Ht.
        change (x :: a ++ b) with ((x :: a) ++ b). by rewrite take_app_length. }
      split_and!; [simpl; lia|lia|by rewrite E|].
      rewrite <- (take_drop (length (x :: a)) needle), E, <- app_assoc in Ht.
      change (x :: a ++ b) with ((x :: a) ++ b) in Ht.
      apply app_inv_head in Ht as ->. apply startswith_app.
  - destruct (IH H) as [Ha|[Hb|(k & a' & Hk & -> & Hs)]].
    + left. rewrite contains_cons, Ha. apply orb_true_r.
    + by right; left.
    + right; right. by exists k, (x :: a').
Qed.

Lemma clash_startswith t needle s :
  clash t needle = true → startswith (t ++ s) needle = false.
Proof.
  revert needle. induction t as [|a t IH]; intros [|b needle]; try done.
  cbn [clash app startswith]. intros [H|H]%orb_true_iff.
  - apply negb_true_iff in H. by rewrite H.
  - rewrite (IH _ H). apply andb_false_r.
Qed.

Lemma never_starts_contains needle pre s :
  never_starts needle pre = true → contains needle (pre ++ s) = contains needle s.
Proof.
  induction pre as [|a pre IH]; [done|]. cbn [never_starts].
  intros [Hc Hn]%andb_true_iff. cbn [app]. rewrite contains_cons, IH by done.
  change (a :: pre ++ s) with ((a :: pre) ++ s). by rewrite clash_startswith.
Qed.

Lemma startswith_rev_suffix (a' t : text) :
  startswith (rev (a' ++ t)) (rev t) = true.
Proof. rewrite rev_app_distr. apply startswith_app. Qed.

Lemma in_range_forallb (f : nat → bool) lo len k :
  forallb f (seq lo len) = true → (lo ≤ k < lo + len)%nat → f k = true.
Proof. intros H Hk. eapply forallb_forall; [exact H|]. apply in_seq. lia. Qed.

(** The new AGPL header put where the only old MIT header stood brings no
    old header back. *)
Lemma old_header_gone pre post :
  contains ToAgpl.OLD_MIT_HEADER (pre ++ removelast ToAgpl.OLD_MIT_HEADER) = false →
  contains ToAgpl.OLD_MIT_HEADER (tl ToAgpl.OLD_MIT_HEADER ++ post) = false →
  contains ToAgpl.OLD_MIT_HEADER (pre ++ ToAgpl.NEW_AGPL_HEADER ++ post) = false.
Proof.
  intros H1 H2. apply not_true_is_false. intros H.
  apply contains_app_inv in H as [H|[H|(k & a' & Hk & -> & Hs)]].
  - apply (contains_app_l _ _ (removelast ToAgpl.OLD_MIT_HEADER)) in H. congruence.
  - apply contains_app_inv in H as [H|[H|(k & a' & Hk & Hn & Hs)]].
    + vm_compute in H. discriminate H.
    + apply (contains_app_r _ (tl ToAgpl.OLD_MIT_HEADER)) in H. congruence.
    + rewrite OLD_MIT_HEADER_length in Hk.
      destruct (decide (k = 1%nat)) as [->|Hk1].
      * apply startswith_inv in Hs as [t ->].
        assert (E : tl ToAgpl.OLD_MIT_HEADER ++ drop 1 ToAgpl.OLD_MIT_HEADER ++ t
                    = take 134 (tl ToAgpl.OLD_MIT_HEADER) ++ ToAgpl.OLD_MIT_HEADER ++ t).
        { rewrite <- (take_drop 134 (tl ToAgpl.OLD_MIT_HEADER)) at 1.
          rewrite <- app_assoc. f_equal. }
        rewrite E, contains_here in H2. discriminate H2.
      * assert (Hc : negb (startswith (rev ToAgpl.NEW_AGPL_HEADER)
                             (rev (take k ToAgpl.OLD_MIT_HEADER))) = true).
        { apply (in_range_forallb
                   (λ k, negb (startswith (rev ToAgpl.NEW_AGPL_HEADER)
                                 (rev (take k ToAgpl.OLD_MIT_HEADER)))) 2 134);
            [vm_compute; reflexivity|lia]. }
        rewrite Hn, startswith_rev_suffix in Hc. discriminate Hc.
  - rewrite OLD_MIT_HEADER_length in Hk.
    destruct (decide (k = 135%nat)) as [->|Hk1].
    + assert (E : (a' ++ take 135 ToAgpl.OLD_MIT_HEADER) ++ removelast ToAgpl.OLD_MIT_HEADER
                  = a' ++ ToAgpl.OLD_MIT_HEADER ++ tl (removelast ToAgpl.OLD_MIT_HEADER)).
      { rewrite <- !app_assoc. f_equal. }
      rewrite E, contains_here in H1. discriminate H1.
    + assert (Hc : clash ToAgpl.NEW_AGPL_HEADER (drop k ToAgpl.OLD_MIT_HEADER) = true).
      { apply (in_range_forallb
                 (λ k, clash ToAgpl.NEW_AGPL_HEADER (drop k ToAgpl.OLD_MIT_HEADER)) 1 134);
          [vm_compute; reflexivity|lia]. }
      rewrite (clash_startswith _ _ _ Hc) in Hs. discriminate Hs.
Qed.

End Seam.

(** ** Replacing a header that is there *)

Section Replaced.

Implicit Types (p : path) (w : world) (c pre post s : text).

Lemma AGPL_PATTERN_head :
  ToMit.AGPL_PATTERN = One (Lit 47) :: tl ToMit.AGPL_PATTERN.
Proof. reflexivity. Qed.

Lemma COPYRIGHT_PATTERN_head :
  ToMit.COPYRIGHT_PATTERN = One (Lit 47) :: tl ToMit.COPYRIGHT_PATTERN.
Proof. reflexivity. Qed.

(** [update_file] on a content in which [AGPL_PATTERN] is found. *)
Lemma new_content_agpl c i n :
  search ToMit.AGPL_PATTERN c = Some (i, n) →
  ToMit.new_content c
  = take i c ++ ToMit.NEW_HEADER ++ [nl; nl]
    ++ sub ToMit.AGPL_PATTERN (ToMit.NEW_HEADER ++ [nl; nl]) (drop (i + n) c).
Proof.
  intros H. unfold ToMit.new_content. rewrite H.
  rewrite (sub_search _ _ _ _ _ H), <- ?app_assoc; [done|].
  apply search_Some in H as [H _]. rewrite AGPL_PATTERN_head in H.
  by apply rmatch_One_pos in H.
Qed.

(** ... and on one in which only [COPYRIGHT_PATTERN] is. *)
Lemma new_content_copyright c i n :
  search ToMit.AGPL_PATTERN c = None →
  search ToMit.COPYRIGHT_PATTERN c = Some (i, n) →
  ToMit.new_content c
  = take i c ++ ToMit.NEW_HEADER ++ [nl; nl]
    ++ sub ToMit.COPYRIGHT_PATTERN (ToMit.NEW_HEADER ++ [nl; nl]) (drop (i + n) c).
Proof.
  intros Ha H. unfold ToMit.new_content. rewrite Ha, H.
  rewrite (sub_search _ _ _ _ _ H), <- ?app_assoc; [done|].
  apply search_Some in H as [H _]. rewrite COPYRIGHT_PATTERN_head in H.
  by apply rmatch_One_pos in H.
Qed.

Lemma rewrite_old_header pre post :
  contains ToAgpl.OLD_MIT_HEADER (pre ++ removelast ToAgpl.OLD_MIT_HEADER) = false →
  ToAgpl.rewrite (pre ++ ToAgpl.OLD_MIT_HEADER ++ post)
  = (ToAgpl.replaced, pre ++ ToAgpl.NEW_AGPL_HEADER ++ post).
Proof.
  intros H. unfold ToAgpl.rewrite.
  by rewrite contains_here, replace_first_leftmost.
Qed.

End Replaced.

(** C3, as the code has it.  [process_file] replaces the leftmost old MIT
    header by the new AGPL header and nothing else: what followed the old
    header follows the new one, no blank line is added.  When the old header
    occurred nowhere else, none is left.  [update_file] replaces the leftmost
    span [AGPL_PATTERN] matches by its header and one blank line, and goes on
    with the text after that span. *)
Theorem C3_old_header_replaced (p : path) (w : world) (pre post c : text) (i n : nat) :
  contains ToAgpl.OLD_MIT_HEADER (pre ++ removelast ToAgpl.OLD_MIT_HEADER) = false →
  (ToAgpl.rewrite (pre ++ ToAgpl.OLD_MIT_HEADER ++ post)
   = (ToAgpl.replaced, pre ++ ToAgpl.NEW_AGPL_HEADER ++ post)) ∧
  (disk w !! p = Some (File (Some (pre ++ ToAgpl.OLD_MIT_HEADER ++ post)) true) →
   ToAgpl.process_file p w
   = (ToAgpl.replaced, stored p (pre ++ ToAgpl.NEW_AGPL_HEADER ++ post) w)) ∧
  (contains ToAgpl.OLD_MIT_HEADER (tl ToAgpl.OLD_MIT_HEADER ++ post) = false →
   contains ToAgpl.OLD_MIT_HEADER (pre ++ ToAgpl.NEW_AGPL_HEADER ++ post) = false) ∧
  (search ToMit.AGPL_PATTERN c = Some (i, n) →
   ToMit.new_content c
   = take i c ++ ToMit.NEW_HEADER ++ [nl; nl]
     ++ sub ToMit.AGPL_PATTERN (ToMit.NEW_HEADER ++ [nl; nl]) (drop (i + n) c)).
Proof.
  intros H. split_and!.
  - by apply rewrite_old_header.
  - intros Hd. by rewrite (process_file_readable _ _ _ _ Hd), rewrite_old_header.
  - intros H2. by apply old_header_gone.
  - apply new_content_agpl.
Qed.

(** The old header on top of a module, and the AGPL header the other script
    writes on top of another. *)
Lemma C3_witness :
  let p := lit "src/lib/a.ts" in
  let post := nl :: lit "export const a = 1;" in
  let w := World {[ p := File (Some (ToAgpl.OLD_MIT_HEADER ++ post)) true ]} [] [] in
  ToAgpl.process_file p w = (ToAgpl.replaced, stored p (ToAgpl.NEW_AGPL_HEADER ++ post) w) ∧
  contains ToAgpl.OLD_MIT_HEADER (ToAgpl.NEW_AGPL_HEADER ++ post) = false ∧
  ToMit.new_content (ToAgpl.NEW_AGPL_HEADER ++ post)
  = ToMit.NEW_HEADER ++ [nl; nl] ++ lit "export const a = 1;".
Proof.
  intros p post w.
  destruct (C3_old_header_replaced p w [] post (ToAgpl.NEW_AGPL_HEADER ++ post) 0 811)
    as (_ & H1 & H2 & H3); [reflexivity|].
  split_and!.
  - apply H1. reflexivity.
  - apply H2. reflexivity.
  - rewrite H3 by (vm_compute; reflexivity). vm_compute. reflexivity.
Defined.

(** The old header pasted twice: one of the two is left, and no blank line
    was added after the new header. *)
Lemma C3_counterexample :
  let c := ToAgpl.OLD_MIT_HEADER ++ nl :: ToAgpl.OLD_MIT_HEADER in
  ¬ (contains ToAgpl.OLD_MIT_HEADER c = true →
     contains ToAgpl.OLD_MIT_HEADER (ToAgpl.rewrite c).2 = false ∧
     (ToAgpl.rewrite c).2
     = ToAgpl.NEW_AGPL_HEADER ++ [nl; nl] ++ nl :: ToAgpl.OLD_MIT_HEADER).
Proof.
  intros c H. destruct H as [H _]; [reflexivity|].
  vm_compute in H. discriminate H.
Qed.

(** ** Headers far from the start *)

(** C10, as the code has it.  Both scripts look for a header in the whole
    content.  [process_file] takes any content that holds the old header,
    after whatever prefix, as [replaced] and replaces the leftmost
    occurrence; [update_file] finds a pattern that matches after whatever
    prefix and replaces the leftmost match at whatever offset.  Only the
    copyright probe of [process_file] stops after 1000 characters. *)
Theorem C10_header_anywhere (pre post s c : text) (i n : nat) :
  (ToAgpl.rewrite (pre ++ ToAgpl.OLD_MIT_HEADER ++ post)).1 = ToAgpl.replaced ∧
  (contains ToAgpl.OLD_MIT_HEADER (pre ++ removelast ToAgpl.OLD_MIT_HEADER) = false →
   (ToAgpl.rewrite (pre ++ ToAgpl.OLD_MIT_HEADER ++ post)).2
   = pre ++ ToAgpl.NEW_AGPL_HEADER ++ post) ∧
  (is_Some (rmatch ToMit.AGPL_PATTERN s) →
   is_Some (search ToMit.AGPL_PATTERN (pre ++ s))) ∧
  (is_Some (rmatch ToMit.COPYRIGHT_PATTERN s) →
   is_Some (search ToMit.COPYRIGHT_PATTERN (pre ++ s))) ∧
  (search ToMit.AGPL_PATTERN c = Some (i, n) →
   ToMit.new_content c
   = take i c ++ ToMit.NEW_HEADER ++ [nl; nl]
     ++ sub ToMit.AGPL_PATTERN (ToMit.NEW_HEADER ++ [nl; nl]) (drop (i + n) c)) ∧
  (search ToMit.AGPL_PATTERN c = None →
   search ToMit.COPYRIGHT_PATTERN c = Some (i, n) →
   ToMit.new_content c
   = take i c ++ ToMit.NEW_HEADER ++ [nl; nl]
     ++ sub ToMit.COPYRIGHT_PATTERN (ToMit.NEW_HEADER ++ [nl; nl]) (drop (i + n) c)) ∧
  (length pre = 1000%nat → ToAgpl.no_copyright (pre ++ post) = ToAgpl.no_copyright pre).
Proof.
  split_and!.
  - unfold ToAgpl.rewrite. by rewrite contains_here.
  - intros H. by rewrite rewrite_old_header.
  - apply search_app.
  - apply search_app.
  - apply new_content_agpl.
  - apply new_content_copyright.
  - intros Hl. unfold ToAgpl.no_copyright.
    rewrite take_app_le by lia. by rewrite !take_ge by lia.
Qed.

(** A header under 1200 characters of other text. *)
Lemma C10_witness :
  let pre := replicate 1200 120 in
  let post := nl :: lit "export {};" in
  (ToAgpl.rewrite (pre ++ ToAgpl.OLD_MIT_HEADER ++ post)).2
  = pre ++ ToAgpl.NEW_AGPL_HEADER ++ post ∧
  is_Some (search ToMit.AGPL_PATTERN (pre ++ ToAgpl.NEW_AGPL_HEADER ++ post)) ∧
  ToMit.new_content (pre ++ ToAgpl.NEW_AGPL_HEADER ++ post)
  = pre ++ ToMit.NEW_HEADER ++ [nl; nl] ++ lit "export {};".
Proof.
  intros pre post.
  destruct (C10_header_anywhere pre post (ToAgpl.NEW_AGPL_HEADER ++ post)
              (pre ++ ToAgpl.NEW_AGPL_HEADER ++ post) 1200 811)
    as (_ & H1 & H2 & _ & H3 & _).
  split_and!.
  - apply H1. vm_compute. reflexivity.
  - apply H2. eexists. vm_compute. reflexivity.
  - rewrite H3 by (vm_compute; reflexivity). vm_compute. reflexivity.
Defined.

(** The old header, or an AGPL block, 2000 characters into the file is
    found and replaced all the same. *)
Lemma C10_counterexample :
  let far := replicate 2000 120 in
  ¬ ((ToAgpl.rewrite (far ++ ToAgpl.OLD_MIT_HEADER)).1 ≠ ToAgpl.replaced ∨
     (ToAgpl.rewrite (far ++ ToAgpl.OLD_MIT_HEADER)).2 ≠ far ++ ToAgpl.NEW_AGPL_HEADER ∨
     search ToMit.AGPL_PATTERN (far ++ ToAgpl.NEW_AGPL_HEADER ++ [nl]) = None).
Proof.
  intros far [H|[H|H]].
  - apply H. vm_compute. reflexivity.
  - apply H. vm_compute. reflexivity.
  - vm_compute in H. discriminate H.
Qed.

(** ** What [COPYRIGHT_PATTERN] matches *)

Section Denotation.

Implicit Types (r : regex) (s t u : text) (a : atom).

Lemma denotes_app r1 r2 t :
  denotes (r1 ++ r2) t ↔ ∃ t1 t2, t = t1 ++ t2 ∧ denotes r1 t1 ∧ denotes r2 t2.
Proof.
  split.
  - revert t. induction r1 as [|[a|a|a|a] r1 IH]; intros t H.
    + exists [], t. split_and!; [done|constructor|done].
    + apply denotes_one_inv in H as (c & t' & -> & Hc & H).
      destruct (IH _ H) as (t1 & t2 & -> & H1 & H2).
      exists (c :: t1), t2. split_and!; [done|by constructor|done].
    + apply denotes_opt_inv in H as (u & t' & -> & Hu & H).
      destruct (IH _ H) as (t1 & t2 & -> & H1 & H2).
      exists (u ++ t1), t2. split_and!; [by rewrite app_assoc| |done].
      destruct Hu as [->|(c & -> & Hc)]; [by constructor|by apply denotes_opt_take].
    + apply denotes_star_inv in H as (u & t' & -> & Hu & H).
      destruct (IH _ H) as (t1 & t2 & -> & H1 & H2).
      exists (u ++ t1), t2. split_and!; [by rewrite app_assoc|by constructor|done].
    + apply denotes_lazy_inv in H as (u & t' & -> & Hu & H).
      destruct (IH _ H) as (t1 & t2 & -> & H1 & H2).
      exists (u ++ t1), t2. split_and!; [by rewrite app_assoc|by constructor|done].
  - intros (t1 & t2 & -> & H1 & H2).
    induction H1 as [|a r c t Hc _ IH|a r t _ IH|a r c t Hc _ IH
                     |a r u t Hu _ IH|a r u t Hu _ IH]; cbn [app].
    + done.
    + by constructor.
    + by constructor.
    + by apply denotes_opt_take.
    + rewrite <- app_assoc. by constructor.
    + rewrite <- app_assoc. by constructor.
Qed.

Lemma denotes_lits str t : denotes (lits str) t ↔ t = lit str.
Proof.
  unfold lits. revert t. induction (lit str) as [|c l IH]; intros t; cbn [fmap list_fmap].
  - split; [by inversion 1|intros ->; constructor].
  - split.
    + intros (c' & t' & -> & Hc & H)%denotes_one_inv.
      apply N.eqb_eq in Hc as ->. by apply IH in H as ->.
    + intros ->. constructor; [apply N.eqb_refl|by apply IH].
Qed.

Lemma denotes_nil_inv t : denotes [] t → t = [].
Proof. by inversion 1. Qed.

Lemma denotes_one_iff a t : denotes [One a] t ↔ ∃ c, t = [c] ∧ atom_ok a c = true.
Proof.
  split.
  - intros (c & t' & -> & Hc & ->%denotes_nil_inv)%denotes_one_inv. eauto.
  - intros (c & -> & Hc). constructor; [done|constructor].
Qed.

Lemma denotes_opt_iff a t :
  denotes [Opt a] t ↔ t = [] ∨ ∃ c, t = [c] ∧ atom_ok a c = true.
Proof.
  split.
  - intros (u & t' & -> & Hu & ->%denotes_nil_inv)%denotes_opt_inv.
    rewrite app_nil_r. destruct Hu as [->|(c & -> & Hc)]; eauto.
  - intros [->|(c & -> & Hc)]; [apply denotes_opt_skip|apply denotes_opt_take];
      by try constructor.
Qed.

Lemma denotes_star_iff a t : denotes [Star a] t ↔ forallb (atom_ok a) t = true.
Proof.
  split.
  - intros (u & t' & -> & Hu & ->%denotes_nil_inv)%denotes_star_inv.
    by rewrite app_nil_r.
  - intros H. rewrite <- (app_nil_r t). constructor; [done|constructor].
Qed.

Lemma denotes_lazy_iff a t : denotes [StarLazy a] t ↔ forallb (atom_ok a) t = true.
Proof.
  split.
  - intros (u & t' & -> & Hu & ->%denotes_nil_inv)%denotes_lazy_inv.
    by rewrite app_nil_r.
  - intros H. rewrite <- (app_nil_r t). constructor; [done|constructor].
Qed.

Lemma forallb_any t : forallb (atom_ok Any) t = true.
Proof. by induction t. Qed.

Lemma COPYRIGHT_PATTERN_parts :
  ToMit.COPYRIGHT_PATTERN
  = lits "/*" ++ [Opt (Lit 42)] ++ [Star Space] ++ [One (Lit nl)] ++ [StarLazy Any]
    ++ [One (OneOf [67; 99])] ++ lits "opyright" ++ [StarLazy Any] ++ lits "*/"
    ++ [Star Space] ++ [One (Lit nl)].
Proof. reflexivity. Qed.

Lemma denotes_copyright t :
  denotes ToMit.COPYRIGHT_PATTERN t ↔ copyright_span t.
Proof.
  rewrite COPYRIGHT_PATTERN_parts. unfold copyright_span. split.
  - intros H.
    apply denotes_app in H as (t0 & ? & -> & ->%denotes_lits & H).
    apply denotes_app in H as (star & ? & -> & Hstar%denotes_opt_iff & H).
    apply denotes_app in H as (ws1 & ? & -> & Hws1%denotes_star_iff & H).
    apply denotes_app in H as (? & ? & -> & (? & -> & ->%N.eqb_eq)%denotes_one_iff & H).
    apply denotes_app in H as (body1 & ? & -> & _ & H).
    apply denotes_app in H as (? & ? & -> & (ch & -> & Hch)%denotes_one_iff & H).
    apply denotes_app in H as (? & ? & -> & ->%denotes_lits & H).
    apply denotes_app in H as (body2 & ? & -> & _ & H).
    apply denotes_app in H as (? & ? & -> & ->%denotes_lits & H).
    apply denotes_app in H as (ws2 & ? & -> & Hws2%denotes_star_iff & H).
    apply denotes_one_iff in H as (? & -> & ->%N.eqb_eq).
    exists star, ws1, body1, ch, body2, ws2. split_and!; [done| |done| |done].
    + destruct Hstar as [->|(? & -> & ->%N.eqb_eq)]; auto.
    + cbn in Hch. rewrite orb_false_r in Hch.
      apply orb_true_iff in Hch as [->%N.eqb_eq| ->%N.eqb_eq]; auto.
  - intros (star & ws1 & body1 & ch & body2 & ws2 & -> & Hstar & Hws1 & Hch & Hws2).
    repeat (apply denotes_app; eexists _, _; split; [reflexivity|split]).
    + by apply denotes_lits.
    + apply denotes_opt_iff. destruct Hstar as [->| ->]; [by left|right]. by exists 42.
    + by apply denotes_star_iff.
    + apply denotes_one_iff. by exists nl.
    + apply denotes_lazy_iff, forallb_any.
    + apply denotes_one_iff. exists ch. by destruct Hch as [->| ->].
    + by apply denotes_lits.
    + apply denotes_lazy_iff, forallb_any.
    + by apply denotes_lits.
    + by apply denotes_star_iff.
    + apply denotes_one_iff. by exists nl.
Qed.

End Denotation.

(** C4, as the code has it.  [COPYRIGHT_PATTERN] is used only when
    [AGPL_PATTERN] finds nothing.  The span it matches starts at the leftmost
    place where a match exists and has the shape [copyright_span]: the
    opener must be followed by whitespace and a newline, the word is
    ["Copyright"] or ["copyright"] and no other spelling, and the span runs
    to a comment close that whitespace and a newline follow, so that it need
    not be one comment block.  That span is replaced by the header and one
    blank line, and the scan goes on after it.  Conversely a text of that
    shape anywhere in the content makes the pattern match. *)
Theorem C4_copyright_matcher (c pre blk rest : text) (i n : nat) :
  (is_Some (search ToMit.AGPL_PATTERN c) →
   ToMit.new_content c = sub ToMit.AGPL_PATTERN (ToMit.NEW_HEADER ++ [nl; nl]) c) ∧
  (search ToMit.AGPL_PATTERN c = None →
   search ToMit.COPYRIGHT_PATTERN c = Some (i, n) →
   copyright_span (take n (drop i c)) ∧
   (∀ j, (j < i)%nat → rmatch ToMit.COPYRIGHT_PATTERN (drop j c) = None) ∧
   ToMit.new_content c
   = take i c ++ ToMit.NEW_HEADER ++ [nl; nl]
     ++ sub ToMit.COPYRIGHT_PATTERN (ToMit.NEW_HEADER ++ [nl; nl]) (drop (i + n) c)) ∧
  (copyright_span blk →
   is_Some (search ToMit.COPYRIGHT_PATTERN (pre ++ blk ++ rest))).
Proof.
  split_and!.
  - intros [x Hx]. unfold ToMit.new_content. by rewrite Hx.
  - intros Ha Hc. pose proof (search_Some _ _ _ _ Hc) as (Hm & _ & Hleft).
    split_and!; [|done|by apply new_content_copyright].
    apply denotes_copyright. by apply rmatch_sound in Hm as [Hm _].
  - intros Hb. apply search_app, rmatch_complete. by apply denotes_copyright.
Qed.

(** A comment block with a copyright line on top of a module. *)
Lemma C4_witness :
  let blk := lines_lit ["/**"; " * Copyright 2020 ACME"; " */"; ""]%string in
  let c := blk ++ lit "export {};" in
  copyright_span blk ∧
  ToMit.new_content c = ToMit.NEW_HEADER ++ [nl; nl] ++ lit "export {};".
Proof.
  intros blk c.
  destruct (C4_copyright_matcher c [] blk (lit "export {};") 0 31) as (_ & H1 & _).
  destruct H1 as (Hs & _ & Hn); [vm_compute; reflexivity..|].
  split; [exact Hs|]. rewrite Hn. vm_compute. reflexivity.
Defined.

(** A block whose copyright word is in capitals is a comment block with the
    token, yet it is not matched: the header is put before it and the block
    stays. *)
Lemma C4_counterexample :
  let blk := lines_lit ["/*"; " * COPYRIGHT (C) 2020 ACME"; " */"; ""]%string in
  let c := blk ++ lit "export {};" in
  ¬ (search ToMit.AGPL_PATTERN c = None →
     ToMit.new_content c = ToMit.NEW_HEADER ++ [nl; nl] ++ lit "export {};").
Proof.
  intros blk c H. specialize (H eq_refl).
  apply (f_equal length) in H. vm_compute in H. discriminate H.
Qed.

(** The span can swallow code: from the opener of a first comment, over its
    close and a declaration, to the close of a later comment. *)
Example copyright_span_over_code :
  ToMit.new_content
    (lines_lit ["/*"; " * notes */"; "const copyright = 1;"; "/* end */"; "x"]%string)
  = ToMit.NEW_HEADER ++ [nl; nl] ++ lit "x".
Proof. vm_compute. reflexivity. Qed.

(** ** Running a script on its own output *)

Section Again.

Implicit Types (r : regex) (c s t pre post rest : text).

Lemma search_cons_None r a s :
  rmatch r (a :: s) = None → search r s = None → search r (a :: s) = None.
Proof. intros H1 H2. by rewrite search_cons, H1, H2. Qed.

Lemma search_here r s n : rmatch r s = Some n → search r s = Some (0%nat, n).
Proof. intros H. destruct s; simpl; by rewrite H. Qed.

(** A pattern that starts with two given characters matches nowhere inside
    a prefix that never shows them in a row. *)
Lemma clash_nil_r t : clash t [] = false.
Proof. by destruct t. Qed.

Lemma rmatch_clash2 x y r t s :
  clash t [x; y] = true → rmatch (One (Lit x) :: One (Lit y) :: r) (t ++ s) = None.
Proof.
  destruct t as [|a t]; [done|]. cbn [clash app]. rewrite rmatch_One. simpl atom_ok.
  destruct (a =? x); [|done]. simpl negb. rewrite orb_false_l.
  destruct t as [|b t]; [done|]. cbn [clash app]. rewrite rmatch_One. simpl atom_ok.
  rewrite clash_nil_r, orb_false_r. by intros ->%negb_true_iff.
Qed.

Lemma search_clash2 x y r pre s :
  never_starts [x; y] pre = true →
  search (One (Lit x) :: One (Lit y) :: r) s = None →
  search (One (Lit x) :: One (Lit y) :: r) (pre ++ s) = None.
Proof.
  intros Hn Hs. induction pre as [|a pre IH]; [done|].
  cbn [never_starts] in Hn. apply andb_true_iff in Hn as [Hc Hn].
  cbn [app]. rewrite search_cons.
  change (a :: pre ++ s) with ((a :: pre) ++ s). rewrite rmatch_clash2 by done.
  by rewrite IH.
Qed.

(** On whitespace without a newline, [\s*\n] finds nothing. *)
Lemma rmatch_tail_clean c :
  clean_start c = true → rmatch [Star Space; One (Lit nl)] c = None.
Proof.
  induction c as [|a c IH]; [done|]. cbn [clean_start].
  destruct (a =? nl) eqn:Ea; [done|]. intros H.
  rewrite rmatch_Star. change (atom_ok Space a) with (is_space a).
  assert (E : rmatch [One (Lit nl)] (a :: c) = None).
  { rewrite rmatch_One. simpl atom_ok. by rewrite Ea. }
  destruct (is_space a); [|done]. by rewrite IH.
Qed.

(** After a header, [\s*\n] takes the two newlines that follow it. *)
Lemma rmatch_tail_blank c :
  clean_start c = true → rmatch [Star Space; One (Lit nl)] (nl :: nl :: c) = Some 2%nat.
Proof.
  intros H. rewrite rmatch_Star. change (atom_ok Space nl) with true. cbv iota.
  rewrite rmatch_Star. change (atom_ok Space nl) with true. cbv iota.
  by rewrite rmatch_tail_clean.
Qed.

Lemma COPYRIGHT_PATTERN_tail :
  ToMit.COPYRIGHT_PATTERN
  = take 18 ToMit.COPYRIGHT_PATTERN ++ [Star Space; One (Lit nl)].
Proof. reflexivity. Qed.

(** The MIT header is matched by [COPYRIGHT_PATTERN] up to its close,
    whatever pattern and text come next. *)
Lemma rmatch_on_header (k : regex) rest n :
  rmatch k rest = Some n →
  rmatch (take 18 ToMit.COPYRIGHT_PATTERN ++ k) (ToMit.NEW_HEADER ++ rest)
  = Some (113 + n)%nat.
Proof.
  intros H.
  let h := eval vm_compute in ToMit.NEW_HEADER in change ToMit.NEW_HEADER with h.
  let h := eval vm_compute in (take 18 ToMit.COPYRIGHT_PATTERN) in
    change (take 18 ToMit.COPYRIGHT_PATTERN) with h.
  cbn. rewrite H. reflexivity.
Qed.

End Again.

Section Idempotence.

Implicit Types (c s t pre post rest : text).

(** What follows a match of a pattern that ends in [k] is what follows a
    match of [k]. *)
Lemma rmatch_rest_property (P : text → Prop) (k : regex) :
  (∀ s n, rmatch k s = Some n → P (drop n s)) →
  ∀ (r : regex) s n, rmatch (r ++ k) s = Some n → P (drop n s).
Proof.
  intros Hk r. induction r as [|[a|a|a|a] r IH]; intros s n; cbn [app].
  - apply Hk.
  - destruct s as [|x s]; [done|]. rewrite rmatch_One.
    destruct (atom_ok a x); [|done].
    destruct (rmatch (r ++ k) s) as [m|] eqn:Em; [|done].
    intros [= <-]. by apply (IH s m).
  - rewrite rmatch_Opt. destruct s as [|x s]; [apply IH|].
    destruct (atom_ok a x); [|apply IH].
    destruct (rmatch (r ++ k) s) as [m|] eqn:Em; [|apply IH].
    intros [= <-]. by apply (IH s m).
  - revert n. induction s as [|x s IHs]; intros n; rewrite rmatch_Star; [apply IH|].
    destruct (atom_ok a x); [|apply IH].
    destruct (rmatch (Star a :: r ++ k) s) as [m|] eqn:Em; [|apply IH].
    intros [= <-]. by apply (IHs m).
  - revert n. induction s as [|x s IHs]; intros n; rewrite rmatch_StarLazy.
    + destruct (rmatch (r ++ k) []) as [m|] eqn:Em; [|done].
      intros [= <-]. by apply (IH [] m).
    + destruct (rmatch (r ++ k) (x :: s)) as [m|] eqn:Em.
      * intros [= <-]. by apply (IH (x :: s) m).
      * destruct (atom_ok a x); [|done].
        destruct (rmatch (StarLazy a :: r ++ k) s) as [m|] eqn:Em'; [|done].
        intros [= <-]. by apply (IHs m).
Qed.

Lemma is_space_nl a : (a =? nl) = true → is_space a = true.
Proof. by intros ->%N.eqb_eq. Qed.

Lemma clean_start_unmatched s :
  rmatch [Star Space; One (Lit nl)] s = None → clean_start s = true.
Proof.
  induction s as [|a s IH]; [done|]. rewrite rmatch_Star, rmatch_One.
  change (atom_ok Space a) with (is_space a). change (atom_ok (Lit nl) a) with (a =? nl).
  cbn [clean_start]. destruct (a =? nl) eqn:Ea.
  - rewrite is_space_nl by done.
    by destruct (rmatch [Star Space; One (Lit nl)] s).
  - destruct (is_space a); [|done].
    destruct (rmatch [Star Space; One (Lit nl)] s); [done|]. auto.
Qed.

(** The greedy [\s*\n] at the end of both patterns leaves no newline in the
    whitespace that follows the match. *)
Lemma clean_start_after_tail s n :
  rmatch [Star Space; One (Lit nl)] s = Some n → clean_start (drop n s) = true.
Proof.
  revert n. induction s as [|a s IH]; intros n; [done|].
  rewrite rmatch_Star, rmatch_One.
  change (atom_ok Space a) with (is_space a). change (atom_ok (Lit nl) a) with (a =? nl).
  destruct (is_space a) eqn:Es.
  - destruct (rmatch [Star Space; One (Lit nl)] s) as [m|] eqn:Em.
    + intros [= <-]. by apply IH.
    + destruct (a =? nl); [|done]. intros [= <-]. by apply clean_start_unmatched.
  - destruct (a =? nl) eqn:Ea; [|done]. by rewrite is_space_nl in Es.
Qed.

Lemma AGPL_PATTERN_tail :
  ToMit.AGPL_PATTERN = take 52 ToMit.AGPL_PATTERN ++ [Star Space; One (Lit nl)].
Proof. reflexivity. Qed.

Lemma clean_start_after_agpl s n :
  rmatch ToMit.AGPL_PATTERN s = Some n → clean_start (drop n s) = true.
Proof.
  rewrite AGPL_PATTERN_tail.
  apply (rmatch_rest_property (λ t, clean_start t = true)), clean_start_after_tail.
Qed.

Lemma clean_start_after_copyright s n :
  rmatch ToMit.COPYRIGHT_PATTERN s = Some n → clean_start (drop n s) = true.
Proof.
  rewrite COPYRIGHT_PATTERN_tail.
  apply (rmatch_rest_property (λ t, clean_start t = true)), clean_start_after_tail.
Qed.

Lemma search_drop_None (r : regex) k s : search r s = None → search r (drop k s) = None.
Proof. rewrite <- (take_drop k s) at 1. apply search_app_None. Qed.

(** A pattern that starts with two given characters is found behind a prefix
    without these two in a row where it is found without the prefix. *)
Lemma search_absent2 x y (r : regex) pre a s :
  contains [x; y] pre = false → a ≠ y →
  search (One (Lit x) :: One (Lit y) :: r) (pre ++ a :: s)
  = prod_map (λ i, length pre + i)%nat id
      <$> search (One (Lit x) :: One (Lit y) :: r) (a :: s).
Proof.
  intros Hp Ha. induction pre as [|b pre IH]; cbn [app].
  - by destruct (search _ (a :: s)) as [[]|].
  - apply contains_false_cons in Hp as [Hb Hp]. rewrite search_cons.
    assert (rmatch (One (Lit x) :: One (Lit y) :: r) (b :: pre ++ a :: s) = None) as ->.
    { rewrite rmatch_One. simpl atom_ok. cbn [startswith] in Hb.
      destruct (b =? x); [|done]. destruct pre as [|b' pre]; cbn [app].
      - rewrite rmatch_One. simpl atom_ok. apply N.eqb_neq in Ha. by rewrite Ha.
      - rewrite rmatch_One. simpl atom_ok. cbn [startswith andb] in Hb.
        rewrite startswith_nil, andb_true_r in Hb. by rewrite Hb. }
    rewrite (IH Hp). by destruct (search _ (a :: s)) as [[]|].
Qed.

(** [update_file] on a content that has its own header, after a prefix
    without comment opener and before a text without header whose leading
    whitespace holds no newline: nothing changes. *)
Lemma new_content_on_header pre c :
  contains (lit "/*") pre = false →
  search ToMit.AGPL_PATTERN c = None →
  search ToMit.COPYRIGHT_PATTERN c = None →
  clean_start c = true →
  ToMit.new_content (pre ++ ToMit.NEW_HEADER ++ [nl; nl] ++ c)
  = pre ++ ToMit.NEW_HEADER ++ [nl; nl] ++ c.
Proof.
  intros Hp Ha Hc Hs.
  assert (Ha2 : search ToMit.AGPL_PATTERN (ToMit.NEW_HEADER ++ [nl; nl] ++ c) = None).
  { change (search ToMit.AGPL_PATTERN (47 :: (tl ToMit.NEW_HEADER ++ [nl; nl]) ++ c)
            = None).
    apply search_cons_None; [reflexivity|].
    apply (search_clash2 47 42 (tl (tl ToMit.AGPL_PATTERN))); [|exact Ha].
    vm_compute. reflexivity. }
  assert (Hm : rmatch ToMit.COPYRIGHT_PATTERN (ToMit.NEW_HEADER ++ [nl; nl] ++ c)
               = Some 115%nat).
  { rewrite COPYRIGHT_PATTERN_tail.
    apply (rmatch_on_header _ (nl :: nl :: c) 2). by apply rmatch_tail_blank. }
  assert (Ha3 : search ToMit.AGPL_PATTERN (pre ++ ToMit.NEW_HEADER ++ [nl; nl] ++ c)
                = None).
  { change (ToMit.NEW_HEADER ++ [nl; nl] ++ c)
      with (47 :: (tl ToMit.NEW_HEADER ++ [nl; nl]) ++ c) in *.
    change ToMit.AGPL_PATTERN
      with (One (Lit 47) :: One (Lit 42) :: tl (tl ToMit.AGPL_PATTERN)) in *.
    rewrite (search_absent2 47 42) by done. apply fmap_None. exact Ha2. }
  assert (Hc3 : search ToMit.COPYRIGHT_PATTERN
                  (pre ++ ToMit.NEW_HEADER ++ [nl; nl] ++ c)
                = Some (length pre, 115%nat)).
  { apply search_here in Hm.
    change (ToMit.NEW_HEADER ++ [nl; nl] ++ c)
      with (47 :: (tl ToMit.NEW_HEADER ++ [nl; nl]) ++ c) in *.
    change ToMit.COPYRIGHT_PATTERN
      with (One (Lit 47) :: One (Lit 42) :: tl (tl ToMit.COPYRIGHT_PATTERN)) in *.
    rewrite (search_absent2 47 42) by done. apply fmap_Some.
    eexists. split; [exact Hm|]. cbn. by rewrite Nat.add_0_r. }
  rewrite (new_content_copyright _ _ _ Ha3 Hc3).
  rewrite take_app_length.
  assert (drop (length pre + 115) (pre ++ ToMit.NEW_HEADER ++ [nl; nl] ++ c) = c) as ->.
  { rewrite <- drop_drop, drop_app_length.
    rewrite (app_assoc _ [nl; nl] c). by apply drop_app_length'. }
  by rewrite sub_None.
Qed.

(** The word ["Copyright"] of the new AGPL header is seen by the probe when
    the header starts within the first 951 characters. *)
Lemma copyright_visible pre rest :
  (length pre ≤ 951)%nat →
  ToAgpl.no_copyright (pre ++ ToAgpl.NEW_AGPL_HEADER ++ rest) = false.
Proof.
  intros Hl. unfold ToAgpl.no_copyright.
  assert (contains (lit "Copyright")
            (take 1000 (pre ++ ToAgpl.NEW_AGPL_HEADER ++ rest)) = true) as ->; [|done].
  rewrite <- (take_drop 49 ToAgpl.NEW_AGPL_HEADER), <- app_assoc, app_assoc.
  rewrite take_app_ge by (rewrite length_app, length_take, NEW_AGPL_HEADER_length; lia).
  apply contains_app_l, contains_app_r. vm_compute. reflexivity.
Qed.

Lemma rewrite_skipped c :
  contains ToAgpl.OLD_MIT_HEADER c = false → ToAgpl.no_copyright c = false →
  ToAgpl.rewrite c = (ToAgpl.skipped, c).
Proof. intros H1 H2. unfold ToAgpl.rewrite. by rewrite H1, H2. Qed.

(** [process_file] on what it made of a content without the old header. *)
Lemma rewrite_again_absent c :
  contains ToAgpl.OLD_MIT_HEADER c = false →
  (ToAgpl.rewrite (ToAgpl.rewrite c).2).2 = (ToAgpl.rewrite c).2.
Proof.
  intros Ho. unfold ToAgpl.rewrite at 2 3. rewrite Ho.
  destruct (ToAgpl.no_copyright c) eqn:Hc; cbn [snd].
  - rewrite rewrite_skipped; [done| |].
    + rewrite app_assoc, never_starts_contains; [done|]. vm_compute. reflexivity.
    + apply (copyright_visible []). simpl. lia.
  - by rewrite rewrite_skipped.
Qed.

(** ... and of a content that held the old header once, early enough. *)
Lemma rewrite_again_single pre post :
  contains ToAgpl.OLD_MIT_HEADER (pre ++ removelast ToAgpl.OLD_MIT_HEADER) = false →
  contains ToAgpl.OLD_MIT_HEADER (tl ToAgpl.OLD_MIT_HEADER ++ post) = false →
  (length pre ≤ 951)%nat →
  (ToAgpl.rewrite (ToAgpl.rewrite (pre ++ ToAgpl.OLD_MIT_HEADER ++ post)).2).2
  = (ToAgpl.rewrite (pre ++ ToAgpl.OLD_MIT_HEADER ++ post)).2.
Proof.
  intros H1 H2 Hl. rewrite rewrite_old_header by done. cbn [snd].
  rewrite rewrite_skipped; [done| |].
  - by apply old_header_gone.
  - by apply copyright_visible.
Qed.

Lemma split_nl1_spec c :
  match (split_nl1 c).2 with
  | Some rest => c = (split_nl1 c).1 ++ nl :: rest
  | None => c = (split_nl1 c).1
  end.
Proof.
  induction c as [|a c IH]; [done|]. cbn [split_nl1].
  destruct (a =? nl) eqn:Ea; [apply N.eqb_eq in Ea as ->; done|].
  destruct (split_nl1 c) as [h [rest|]]; cbn [fst snd] in *; by rewrite IH at 1.
Qed.

(** [update_file] on what it made of a content in which a pattern was found
    at offset [i], over [n] characters. *)
Lemma new_content_again_found c i n (r : regex) :
  rmatch r (drop i c) = Some n →
  (∀ s m, rmatch r s = Some m → clean_start (drop m s) = true) →
  contains (lit "/*") (take i c) = false →
  search ToMit.AGPL_PATTERN (drop (i + n) c) = None →
  search ToMit.COPYRIGHT_PATTERN (drop (i + n) c) = None →
  ToMit.new_content (take i c ++ ToMit.NEW_HEADER ++ [nl; nl] ++ drop (i + n) c)
  = take i c ++ ToMit.NEW_HEADER ++ [nl; nl] ++ drop (i + n) c.
Proof.
  intros Hm Hr Hp Ha Hc. apply new_content_on_header; [done..|].
  rewrite <- drop_drop. by apply Hr.
Qed.

End Idempotence.

(** C1, as the code has it.  A second run changes nothing more
    - for [update_file], on a content in which neither pattern is found and
      that does not start with the marker, when its leading whitespace holds
      no newline; on a content that starts with the marker and in which
      neither pattern is found, when the first line holds no comment opener
      and the whitespace after it no newline; and on a content in which a
      pattern is found, when no comment opener precedes the leftmost match
      and neither pattern is found after it;
    - for [process_file], on a content without the old MIT header, and on a
      content that holds it exactly once, starting within the first 951
      characters. *)
Theorem C1_second_run_stable (c pre post : text) (i n : nat) :
  (search ToMit.AGPL_PATTERN c = None →
   search ToMit.COPYRIGHT_PATTERN c = None →
   startswith c ToMit.USE_CLIENT = false →
   clean_start c = true →
   ToMit.new_content (ToMit.new_content c) = ToMit.new_content c) ∧
  (search ToMit.AGPL_PATTERN c = None →
   search ToMit.COPYRIGHT_PATTERN c = None →
   startswith c ToMit.USE_CLIENT = true →
   contains (lit "/*") (split_nl1 c).1 = false →
   clean_start (default [] (split_nl1 c).2) = true →
   ToMit.new_content (ToMit.new_content c) = ToMit.new_content c) ∧
  (search ToMit.AGPL_PATTERN c = Some (i, n) →
   contains (lit "/*") (take i c) = false →
   search ToMit.AGPL_PATTERN (drop (i + n) c) = None →
   search ToMit.COPYRIGHT_PATTERN (drop (i + n) c) = None →
   ToMit.new_content (ToMit.new_content c) = ToMit.new_content c) ∧
  (search ToMit.AGPL_PATTERN c = None →
   search ToMit.COPYRIGHT_PATTERN c = Some (i, n) →
   contains (lit "/*") (take i c) = false →
   search ToMit.COPYRIGHT_PATTERN (drop (i + n) c) = None →
   ToMit.new_content (ToMit.new_content c) = ToMit.new_content c) ∧
  (contains ToAgpl.OLD_MIT_HEADER c = false →
   (ToAgpl.rewrite (ToAgpl.rewrite c).2).2 = (ToAgpl.rewrite c).2) ∧
  (contains ToAgpl.OLD_MIT_HEADER (pre ++ removelast ToAgpl.OLD_MIT_HEADER) = false →
   contains ToAgpl.OLD_MIT_HEADER (tl ToAgpl.OLD_MIT_HEADER ++ post) = false →
   (length pre ≤ 951)%nat →
   (ToAgpl.rewrite (ToAgpl.rewrite (pre ++ ToAgpl.OLD_MIT_HEADER ++ post)).2).2
   = (ToAgpl.rewrite (pre ++ ToAgpl.OLD_MIT_HEADER ++ post)).2).
Proof.
  split_and!.
  - intros Ha Hc Hm Hs.
    assert (E : ToMit.new_content c = ToMit.NEW_HEADER ++ [nl; nl] ++ c).
    { unfold ToMit.new_content. by rewrite Ha, Hc, Hm. }
    rewrite E. by apply (new_content_on_header []).
  - intros Ha Hc Hm Hl Hs.
    assert (E : ToMit.new_content c
                = ((split_nl1 c).1 ++ [nl; nl]) ++ ToMit.NEW_HEADER ++ [nl; nl]
                  ++ default [] (split_nl1 c).2).
    { unfold ToMit.new_content. rewrite Ha, Hc, Hm. by rewrite <- app_assoc. }
    rewrite E. apply new_content_on_header; [| | |done].
    + apply not_true_is_false.
      intros [H|[H|(k & a' & Hk & _ & H)]]%contains_app_inv; [congruence|done|].
      assert (k = 1%nat) as -> by (cbn in Hk; lia). done.
    + pose proof (split_nl1_spec c) as Hsp.
      destruct (split_nl1 c).2 as [rest|]; [|done]. cbn [default].
      rewrite Hsp in Ha. rewrite (cons_middle nl), app_assoc in Ha.
      by apply search_app_None in Ha.
    + pose proof (split_nl1_spec c) as Hsp.
      destruct (split_nl1 c).2 as [rest|]; [|done]. cbn [default].
      rewrite Hsp in Hc. rewrite (cons_middle nl), app_assoc in Hc.
      by apply search_app_None in Hc.
  - intros Ha Hp Ha' Hc'.
    rewrite (new_content_agpl _ _ _ Ha), (sub_None _ _ _ Ha').
    apply search_Some in Ha as [Hm _].
    by apply (new_content_again_found _ _ _ _ Hm clean_start_after_agpl).
  - intros Ha Hc Hp Hc'.
    rewrite (new_content_copyright _ _ _ Ha Hc), (sub_None _ _ _ Hc').
    apply search_Some in Hc as [Hm _].
    apply (new_content_again_found _ _ _ _ Hm clean_start_after_copyright);
      [done| |done].
    by apply search_drop_None.
  - apply rewrite_again_absent.
  - apply rewrite_again_single.
Qed.

Lemma C1_witness :
  let c := lit "export const x = 1;" ++ [nl] in
  let m := lit "'use client';" ++ nl :: c in
  let pre := lit "// @ts-check" ++ [nl] in
  let a := pre ++ ToAgpl.NEW_AGPL_HEADER ++ nl :: c in
  let b := pre ++ lines_lit ["/**"; " * Copyright 2020 ACME"; " */"; ""]%string ++ c in
  ToMit.new_content (ToMit.new_content c) = ToMit.new_content c ∧
  ToMit.new_content (ToMit.new_content m) = ToMit.new_content m ∧
  ToMit.new_content (ToMit.new_content a) = ToMit.new_content a ∧
  ToMit.new_content (ToMit.new_content b) = ToMit.new_content b ∧
  (ToAgpl.rewrite (ToAgpl.rewrite c).2).2 = (ToAgpl.rewrite c).2 ∧
  (ToAgpl.rewrite (ToAgpl.rewrite (pre ++ ToAgpl.OLD_MIT_HEADER ++ nl :: c)).2).2
  = (ToAgpl.rewrite (pre ++ ToAgpl.OLD_MIT_HEADER ++ nl :: c)).2.
Proof.
  intros c m pre a b. split_and!.
  - destruct (C1_second_run_stable c pre (nl :: c) 0 0) as (H & _).
    apply H; reflexivity.
  - destruct (C1_second_run_stable m pre (nl :: c) 0 0) as (_ & H & _).
    apply H; reflexivity.
  - destruct (C1_second_run_stable a pre (nl :: c) 13 811) as (_ & _ & H & _).
    apply H; vm_compute; reflexivity.
  - destruct (C1_second_run_stable b pre (nl :: c) 13 31) as (_ & _ & _ & H & _).
    apply H; vm_compute; reflexivity.
  - destruct (C1_second_run_stable c pre (nl :: c) 0 0) as (_ & _ & _ & _ & H & _).
    apply H; reflexivity.
  - destruct (C1_second_run_stable c pre (nl :: c) 0 0) as (_ & _ & _ & _ & _ & H).
    apply H; [reflexivity|reflexivity|vm_compute; lia].
Defined.

(** A file that starts with an empty line loses it on the second run of
    [update-license-headers.py]; a file with the old header after 1000
    characters gets a second header on the second run of
    [update_license_headers.py]. *)
Lemma C1_counterexample :
  let c1 := nl :: lit "export const x = 1;" in
  let c2 := replicate 1000 120 ++ ToAgpl.OLD_MIT_HEADER in
  ¬ (ToMit.new_content (ToMit.new_content c1) = ToMit.new_content c1 ∨
     (ToAgpl.rewrite (ToAgpl.rewrite c2).2).2 = (ToAgpl.rewrite c2).2).
Proof.
  intros c1 c2 [H|H]; apply (f_equal length) in H; vm_compute in H; discriminate H.
Qed.

(** * Further properties of the two scripts *)

(** ** What the per-file operations report and touch *)

Section Reports.

Implicit Types (p q : path) (w : world) (c s : text).

Lemma snoc_neq {A} (l : list A) (x : A) : l ++ [x] ≠ l.
Proof.
  intros H. apply (f_equal length) in H. rewrite length_app in H. simpl in H. lia.
Qed.

(** The three ways [update_file] ends. *)
Lemma update_file_cases p w :
  (∃ c, disk w !! p = Some (File (Some c) true) ∧ ToMit.new_content c ≠ c ∧
        ToMit.update_file p w = (true, stored p (ToMit.new_content c) w)) ∨
  (¬ fails ToMit.new_content p w ∧ ToMit.update_file p w = (false, w)) ∨
  (fails ToMit.new_content p w ∧
   ToMit.update_file p w
   = (false, print (ErrorLine p) (left_by_failure ToMit.new_content p w))).
Proof.
  destruct (disk w !! p) as [[[c|] wr b]|] eqn:E.
  - rewrite (update_file_readable_gen _ _ _ _ _ E).
    destruct (decide (ToMit.new_content c = c)) as [Hc|Hc].
    + right; left. split; [|done]. unfold fails. rewrite E. by intros [].
    + destruct wr, b as [n|]; cbn [andb negb bool_decide].
      * right; right. rewrite bool_decide_eq_true_2 by done.
        split; [|done]. unfold fails. rewrite E. split; [done|by right].
      * left. by exists c.
      * right; right. split; [|done]. unfold fails. rewrite E. split; [done|by left].
      * right; right. split; [|done]. unfold fails. rewrite E. split; [done|by left].
  - right; right. split; [by unfold fails; rewrite E|].
    apply update_file_fails. unfold fails. by rewrite E.
  - right; right. split; [by unfold fails; rewrite E|].
    apply update_file_fails. unfold fails. by rewrite E.
Qed.

(** The three ways [process_file] ends. *)
Lemma process_file_cases p w :
  (∃ c, disk w !! p = Some (File (Some c) true) ∧
        (ToAgpl.rewrite c).1 ≠ ToAgpl.skipped ∧
        ToAgpl.process_file p w
        = ((ToAgpl.rewrite c).1, stored p (ToAgpl.rewrite c).2 w)) ∨
  (¬ fails (λ c, (ToAgpl.rewrite c).2) p w ∧
   ToAgpl.process_file p w = (ToAgpl.skipped, w)) ∨
  (fails (λ c, (ToAgpl.rewrite c).2) p w ∧
   ToAgpl.process_file p w
   = (ToAgpl.error,
      print (ErrorLine p) (left_by_failure (λ c, (ToAgpl.rewrite c).2) p w))).
Proof.
  destruct (disk w !! p) as [[[c|] wr b]|] eqn:E.
  - assert (Hs : (ToAgpl.rewrite c).1 = ToAgpl.skipped ∨
                 (ToAgpl.rewrite c).1 ≠ ToAgpl.skipped).
    { destruct (ToAgpl.rewrite c).1; auto; by right. }
    destruct Hs as [Hs|Hs].
    + right; left. rewrite (process_file_readable_gen _ _ _ _ _ E), Hs.
      split; [|done]. unfold fails. rewrite E.
      intros [Hne _]. apply Hne. by apply rewrite_same_iff.
    + assert (Hne : (ToAgpl.rewrite c).2 ≠ c) by by intros ?%rewrite_same_iff.
      destruct wr, b as [n|].
      * right; right. assert (Hf : fails (λ c, (ToAgpl.rewrite c).2) p w).
        { unfold fails. rewrite E. split; [done|by right]. }
        split; [done|by apply process_file_fails].
      * left. exists c. split_and!; [done..|].
        rewrite (process_file_readable_gen _ _ _ _ _ E).
        by destruct (ToAgpl.rewrite c).1.
      * right; right. assert (Hf : fails (λ c, (ToAgpl.rewrite c).2) p w).
        { unfold fails. rewrite E. split; [done|by left]. }
        split; [done|by apply process_file_fails].
      * right; right. assert (Hf : fails (λ c, (ToAgpl.rewrite c).2) p w).
        { unfold fails. rewrite E. split; [done|by left]. }
        split; [done|by apply process_file_fails].
  - right; right. split; [by unfold fails; rewrite E|].
    apply process_file_fails. unfold fails. by rewrite E.
  - right; right. split; [by unfold fails; rewrite E|].
    apply process_file_fails. unfold fails. by rewrite E.
Qed.

End Reports.

(** X1.  What [update_file] returns tells what it did, whatever the file:
    it returns [True] exactly when it completed a write of the path, and it
    logs one error line with the path exactly when the operation fails.
    When it returns [False] the log of writes and every other file are as
    before; the file itself is as before too, unless a write of it broke
    after the open: then it holds the part of the new content that reached
    it. *)
Theorem X1_update_file_reports (p : path) (w : world) :
  ((ToMit.update_file p w).1 = true ↔ wrote p w (ToMit.update_file p w).2) ∧
  (fails ToMit.new_content p w ↔
   console (ToMit.update_file p w).2 = console w ++ [ErrorLine p]) ∧
  (¬ fails ToMit.new_content p w →
   console (ToMit.update_file p w).2 = console w) ∧
  ((ToMit.update_file p w).1 = false →
   written (ToMit.update_file p w).2 = written w ∧
   (∀ q, q ≠ p → disk (ToMit.update_file p w).2 !! q = disk w !! q) ∧
   ((∀ c n, disk w !! p ≠ Some (MkFile (Some c) true (Some n))) →
    disk (ToMit.update_file p w).2 = disk w) ∧
   (∀ c n, disk w !! p = Some (MkFile (Some c) true (Some n)) →
    disk (ToMit.update_file p w).2 !! p
    = Some (MkFile (Some (if decide (ToMit.new_content c = c) then c
                          else take n (ToMit.new_content c)))
                   true (Some n)))).
Proof.
  destruct (update_file_cases p w) as [(c & Hd & Hne & ->)|[[Hf ->]|[Hf ->]]];
    cbn [fst snd].
  - assert (Hnf : ¬ fails ToMit.new_content p w).
    { unfold fails. rewrite Hd. by intros [? [|[]]]. }
    split_and!; [split; [intros _; apply wrote_stored|done]| |done|done].
    split; [done|]. cbn [stored console]. intros H. symmetry in H.
    by apply snoc_neq in H.
  - split_and!; [split; [done|by intros ?%not_wrote_same]| |done|].
    + split; [done|]. intros H. symmetry in H. by apply snoc_neq in H.
    + intros _. split_and!; [done..|]. intros c n Hd.
      case_decide as Hc; [done|]. destruct Hf. unfold fails. rewrite Hd.
      split; [done|by right].
  - split_and!; [split; [done|]| |done|].
    + intros H. exfalso. revert H. apply not_wrote_eq. cbn [print written].
      apply left_by_failure_log.
    + split; [intros _|done]. cbn [print console].
      by rewrite (proj2 (left_by_failure_log _ _ _)).
    + intros _. cbn [print disk written]. split_and!.
      * apply left_by_failure_log.
      * intros q Hq. by apply left_by_failure_other.
      * intros H. by rewrite left_by_failure_same.
      * intros c n Hd. rewrite (left_by_failure_broken _ _ _ _ _ Hd).
        case_decide as Hc; [|done]. unfold fails in Hf. rewrite Hd in Hf.
        by destruct Hf.
Qed.

(** X2.  What [process_file] returns tells what it did, whatever the file:
    ['replaced'] or ['added'] exactly when it completed a write of the path,
    ['error'] exactly when the operation fails, which is exactly when it logs
    one error line with the path, and on ['skipped'] nothing at all has
    changed. *)
Theorem X2_process_file_reports (p : path) (w : world) :
  ((ToAgpl.process_file p w).1 = ToAgpl.replaced ∨
   (ToAgpl.process_file p w).1 = ToAgpl.added ↔
   wrote p w (ToAgpl.process_file p w).2) ∧
  ((ToAgpl.process_file p w).1 = ToAgpl.error ↔
   fails (λ c, (ToAgpl.rewrite c).2) p w) ∧
  ((ToAgpl.process_file p w).1 = ToAgpl.error ↔
   console (ToAgpl.process_file p w).2 = console w ++ [ErrorLine p]) ∧
  ((ToAgpl.process_file p w).1 = ToAgpl.skipped → (ToAgpl.process_file p w).2 = w).
Proof.
  destruct (process_file_cases p w) as [(c & Hd & Hne & ->)|[[Hf ->]|[Hf ->]]];
    cbn [fst snd].
  - assert (Hnf : ¬ fails (λ c, (ToAgpl.rewrite c).2) p w).
    { unfold fails. rewrite Hd. by intros [? [|[]]]. }
    pose proof (rewrite_outcome c) as Ho.
    split_and!; [|done| |done].
    + split; [intros _; apply wrote_stored|intros _].
      destruct (ToAgpl.rewrite c).1; auto; done.
    + split; [done|]. cbn [stored console]. intros H. symmetry in H.
      by apply snoc_neq in H.
  - split_and!; [|done| |done].
    + split; [by intros []|by intros ?%not_wrote_same].
    + split; [done|]. intros H. symmetry in H. by apply snoc_neq in H.
  - split_and!; [|done| |done].
    + split; [by intros []|]. intros H. exfalso. revert H.
      apply not_wrote_eq. cbn [print written]. apply left_by_failure_log.
    + split; [intros _|done]. cbn [print console].
      by rewrite (proj2 (left_by_failure_log _ _ _)).
Qed.

(** ** The header is there after a write *)

Section HeaderPresent.

Implicit Types (c s old new : text).

Lemma replace_first_contains old new s :
  contains old s = true → contains new (replace_first old new s) = true.
Proof.
  induction s as [|a s IH]; intros H.
  - rewrite contains_nil, orb_false_r in H.
    rewrite replace_first_startswith by done.
    apply contains_startswith, startswith_app.
  - rewrite contains_cons in H. destruct (startswith (a :: s) old) eqn:E.
    + rewrite replace_first_startswith by done.
      apply contains_startswith, startswith_app.
    + rewrite replace_first_skip by done. rewrite contains_cons.
      rewrite IH by done. apply orb_true_r.
Qed.

Lemma rewrite_has_header c :
  (ToAgpl.rewrite c).1 ≠ ToAgpl.skipped →
  contains ToAgpl.NEW_AGPL_HEADER (ToAgpl.rewrite c).2 = true.
Proof.
  unfold ToAgpl.rewrite. destruct (contains ToAgpl.OLD_MIT_HEADER c) eqn:E.
  - intros _. cbn [snd]. by apply replace_first_contains.
  - destruct (ToAgpl.no_copyright c); [|done]. intros _. cbn [snd].
    apply contains_startswith, startswith_app.
Qed.

Lemma new_content_has_header c :
  contains (ToMit.NEW_HEADER ++ [nl; nl]) (ToMit.new_content c) = true.
Proof.
  unfold ToMit.new_content.
  destruct (search ToMit.AGPL_PATTERN c) as [[i n]|] eqn:Ea.
  - rewrite (sub_search _ _ _ _ _ Ea); [apply contains_here|].
    apply search_Some in Ea as [H _]. rewrite AGPL_PATTERN_head in H.
    by apply rmatch_One_pos in H.
  - destruct (search ToMit.COPYRIGHT_PATTERN c) as [[i n]|] eqn:Ec.
    + rewrite (sub_search _ _ _ _ _ Ec); [apply contains_here|].
      apply search_Some in Ec as [H _]. rewrite COPYRIGHT_PATTERN_head in H.
      by apply rmatch_One_pos in H.
    + destruct (startswith c ToMit.USE_CLIENT); cbv zeta.
      * rewrite (app_assoc (split_nl1 c).1), (app_assoc ToMit.NEW_HEADER).
        apply contains_here.
      * rewrite (app_assoc ToMit.NEW_HEADER).
        apply contains_startswith, startswith_app.
Qed.

End HeaderPresent.

(** X3.  Whatever the content, what [update_file] makes of it holds the MIT
    header followed by one empty line: in the place of the leftmost match when
    a pattern is found, after the first line when the content starts with
    ['use client'], at the very start otherwise. *)
Theorem X3_new_content_has_header (c : text) :
  contains (ToMit.NEW_HEADER ++ [nl; nl]) (ToMit.new_content c) = true ∧
  (∀ i n, search ToMit.AGPL_PATTERN c = Some (i, n) →
          startswith (drop i (ToMit.new_content c)) (ToMit.NEW_HEADER ++ [nl; nl]) = true) ∧
  (∀ i n, search ToMit.AGPL_PATTERN c = None →
          search ToMit.COPYRIGHT_PATTERN c = Some (i, n) →
          startswith (drop i (ToMit.new_content c)) (ToMit.NEW_HEADER ++ [nl; nl]) = true) ∧
  (search ToMit.AGPL_PATTERN c = None → search ToMit.COPYRIGHT_PATTERN c = None →
   startswith c ToMit.USE_CLIENT = false →
   startswith (ToMit.new_content c) (ToMit.NEW_HEADER ++ [nl; nl]) = true).
Proof.
  assert (Hat : ∀ i n (r : regex), search r c = Some (i, n) →
            startswith (drop i (take i c ++ ToMit.NEW_HEADER ++ [nl; nl]
                          ++ sub r (ToMit.NEW_HEADER ++ [nl; nl]) (drop (i + n) c)))
              (ToMit.NEW_HEADER ++ [nl; nl]) = true).
  { intros i n r H. apply search_Some in H as (_ & Hi & _).
    rewrite drop_app_length' by (rewrite length_take; lia).
    rewrite (app_assoc _ [nl; nl]). apply startswith_app. }
  split_and!.
  - apply new_content_has_header.
  - intros i n Ha. rewrite (new_content_agpl _ _ _ Ha). by apply (Hat i n).
  - intros i n Ha Hc. rewrite (new_content_copyright _ _ _ Ha Hc). by apply (Hat i n).
  - intros Ha Hc Hm. unfold ToMit.new_content. rewrite Ha, Hc, Hm.
    rewrite (app_assoc ToMit.NEW_HEADER). apply startswith_app.
Qed.

(** ** Whole runs *)

Section Runs.

Implicit Types (p q : path) (w : world) (files : list path).










Lemma only_rewritten_print_r files l w w' :
  only_rewritten files w w' → only_rewritten files w (print l w').
Proof. done. Qed.

(** Excluded paths drop out of the scan. *)
Lemma ToMit_scan_filter files total updated w :
  ToMit.scan files total updated w
  = ToMit.scan (List.filter (λ p, negb (ToMit.excluded p)) files) total updated w.
Proof.
  revert total updated w. induction files as [|p files IH]; intros total updated w; [done|].
  cbn [ToMit.scan List.filter]. destruct (ToMit.excluded p) eqn:E; cbn [negb].
  - apply IH.
  - cbn [ToMit.scan]. rewrite E. destruct (ToMit.update_file p w) as [[] w']; apply IH.
Qed.

Lemma excluded_part (name : string) pre post :
  In name ["node_modules"; ".next"; "dist"; "build"]%string →
  ToMit.excluded (pre ++ lit name ++ post) = true.
Proof.
  intros H. unfold ToMit.excluded. apply existsb_exists. exists name.
  split; [done|apply contains_here].
Qed.

End Runs.

(** X4.  [main] of [update-license-headers.py] passes over every path that
    holds ["node_modules"], [".next"], ["dist"] or ["build"] anywhere in it,
    be it as a directory or inside a file name: the scan is the scan of the
    other paths, so such a file is neither read, written, logged nor
    counted. *)
Theorem X4_excluded_paths_ignored
    (files : list path) (total updated : nat) (w : world) (pre post : text) :
  ToMit.scan files total updated w
  = ToMit.scan (List.filter (λ p, negb (ToMit.excluded p)) files) total updated w ∧
  ToMit.scan ((pre ++ lit "node_modules" ++ post) :: files) total updated w
  = ToMit.scan files total updated w ∧
  ToMit.scan ((pre ++ lit ".next" ++ post) :: files) total updated w
  = ToMit.scan files total updated w ∧
  ToMit.scan ((pre ++ lit "dist" ++ post) :: files) total updated w
  = ToMit.scan files total updated w ∧
  ToMit.scan ((pre ++ lit "build" ++ post) :: files) total updated w
  = ToMit.scan files total updated w.
Proof.
  split; [apply ToMit_scan_filter|].
  split_and!; cbn [ToMit.scan]; rewrite excluded_part; try done; simpl; tauto.
Qed.

Section Tally.

Implicit Types (p q : path) (w : world) (files : list path).

Lemma Forall_written_cons {P : path → text → Prop} p files (l : list (path * text)) :
  Forall (λ ps, ps.1 ∈ files ∧ P ps.1 ps.2) l →
  Forall (λ ps, ps.1 ∈ p :: files ∧ P ps.1 ps.2) l.
Proof.
  intros H. eapply Forall_impl; [exact H|].
  intros [q s] [Hq HP]. split; [by apply elem_of_cons; right|done].
Qed.

(** The writes of a scan of [update-license-headers.py]. *)
Lemma ToMit_scan_tally files total updated w :
  ∃ extra,
    written (ToMit.scan files total updated w).2 = written w ++ extra ∧
    (ToMit.scan files total updated w).1.2 = (updated + length extra)%nat ∧
    (ToMit.scan files total updated w).1.1
    = (total + length (List.filter (λ p, negb (ToMit.excluded p)) files))%nat ∧
    (length extra ≤ length (List.filter (λ p, negb (ToMit.excluded p)) files))%nat ∧
    Forall (λ ps, ps.1 ∈ files ∧
                  (ToMit.excluded ps.1 = false ∧
                   contains (ToMit.NEW_HEADER ++ [nl; nl]) ps.2 = true)) extra.
Proof.
  revert total updated w. induction files as [|p files IH]; intros total updated w.
  - exists []. cbn. rewrite app_nil_r. split_and!; [done|lia|lia|lia|constructor].
  - cbn [ToMit.scan List.filter]. destruct (ToMit.excluded p) eqn:E; cbn [negb].
    + destruct (IH total updated w) as (extra & H1 & H2 & H3 & H4 & H5).
      exists extra. split_and!; [done..|]. by apply (Forall_written_cons (P := λ q s, ToMit.excluded q = false ∧ contains (ToMit.NEW_HEADER ++ [nl; nl]) s = true)).
    + destruct (update_file_cases p w) as [(c & Hd & Hne & ->)|[[Hf ->]|[Hf ->]]].
      * destruct (IH (S total) (S updated)
                    (print (UpdatedLine p) (stored p (ToMit.new_content c) w)))
          as (extra & H1 & H2 & H3 & H4 & H5).
        exists ((p, ToMit.new_content c) :: extra).
        split_and!; cbn [length]; [|lia|lia|lia|].
        -- rewrite H1. cbn [print stored written]. by rewrite <- app_assoc.
        -- constructor; [|by apply (Forall_written_cons (P := λ q s, ToMit.excluded q = false ∧ contains (ToMit.NEW_HEADER ++ [nl; nl]) s = true))].
           cbn [fst snd]. split_and!; [by apply elem_of_cons; left|done|].
           apply new_content_has_header.
      * destruct (IH (S total) updated w) as (extra & H1 & H2 & H3 & H4 & H5).
        exists extra. split_and!; cbn [length]; [done|lia|lia|lia|].
        by apply (Forall_written_cons (P := λ q s, ToMit.excluded q = false ∧ contains (ToMit.NEW_HEADER ++ [nl; nl]) s = true)).
      * destruct (IH (S total) updated
                    (print (ErrorLine p) (left_by_failure ToMit.new_content p w)))
          as (extra & H1 & H2 & H3 & H4 & H5).
        cbn [print written] in H1.
        rewrite (proj1 (left_by_failure_log _ _ _)) in H1.
        exists extra. split_and!; cbn [length]; [done|lia|lia|lia|].
        by apply (Forall_written_cons (P := λ q s, ToMit.excluded q = false ∧ contains (ToMit.NEW_HEADER ++ [nl; nl]) s = true)).
Qed.

(** The counters and the writes of a scan of [update_license_headers.py]. *)
Lemma ToAgpl_scan_tally files i total c w :
  ∃ extra,
    written (ToAgpl.scan files i total c w).2 = written w ++ extra ∧
    (ToAgpl.replaced_count (ToAgpl.scan files i total c w).1
     + ToAgpl.added_count (ToAgpl.scan files i total c w).1
     = ToAgpl.replaced_count c + ToAgpl.added_count c + length extra)%nat ∧
    (ToAgpl.replaced_count (ToAgpl.scan files i total c w).1
     + ToAgpl.added_count (ToAgpl.scan files i total c w).1
     + ToAgpl.skipped_count (ToAgpl.scan files i total c w).1
     + ToAgpl.errors (ToAgpl.scan files i total c w).1
     = ToAgpl.replaced_count c + ToAgpl.added_count c + ToAgpl.skipped_count c
       + ToAgpl.errors c + length files)%nat ∧
    Forall (λ ps, ps.1 ∈ files ∧
                  contains ToAgpl.NEW_AGPL_HEADER ps.2 = true) extra.
Proof.
  revert i c w. induction files as [|p files IH]; intros i c w.
  - exists []. cbn. rewrite app_nil_r. split_and!; [done|lia|lia|constructor].
  - cbn [ToAgpl.scan].
    set (w0 := if (i mod 10 =? 0)%nat then print (ProgressLine i total) w else w).
    assert (Hw0 : written w0 = written w) by (unfold w0; by destruct (_ =? _)%nat).
    assert (Hup : ∀ l : list (path * text),
              Forall (λ ps, ps.1 ∈ files ∧
                            contains ToAgpl.NEW_AGPL_HEADER ps.2 = true) l →
              Forall (λ ps, ps.1 ∈ p :: files ∧
                            contains ToAgpl.NEW_AGPL_HEADER ps.2 = true) l).
    { intros l H. eapply Forall_impl; [exact H|].
      intros [q s] [Hq HP]. split; [by apply elem_of_cons; right|done]. }
    destruct (process_file_cases p w0) as [(c0 & Hd & Hne & ->)|[[Hf ->]|[Hf ->]]].
    + pose proof (rewrite_has_header c0 Hne) as Hh.
      pose proof (rewrite_outcome c0) as Ho.
      destruct (ToAgpl.rewrite c0).1 eqn:Eo; [| |done|done];
        match goal with
        | |- context [ToAgpl.scan files ?j total ?c' ?w'] =>
            destruct (IH j c' w') as (extra & H1 & H2 & H3 & H4)
        end;
        exists ((p, (ToAgpl.rewrite c0).2) :: extra);
        cbn [ToAgpl.replaced_count ToAgpl.added_count ToAgpl.skipped_count
             ToAgpl.errors] in H2, H3; cbn [length];
        (split_and!; [|lia|lia|]);
        [rewrite H1; cbn [print stored written]; by rewrite Hw0, <- app_assoc
        |constructor; [split; [by apply elem_of_cons; left|done]|by apply Hup]
        |rewrite H1; cbn [print stored written]; by rewrite Hw0, <- app_assoc
        |constructor; [split; [by apply elem_of_cons; left|done]|by apply Hup]].
    + match goal with
      | |- context [ToAgpl.scan files ?j total ?c' ?w'] =>
          destruct (IH j c' w') as (extra & H1 & H2 & H3 & H4)
      end.
      exists extra.
      cbn [ToAgpl.replaced_count ToAgpl.added_count ToAgpl.skipped_count
           ToAgpl.errors] in H2, H3; cbn [length].
      split_and!; [by rewrite H1, Hw0|lia|lia|by apply Hup].
    + match goal with
      | |- context [ToAgpl.scan files ?j total ?c' ?w'] =>
          destruct (IH j c' w') as (extra & H1 & H2 & H3 & H4)
      end.
      exists extra.
      cbn [ToAgpl.replaced_count ToAgpl.added_count ToAgpl.skipped_count
           ToAgpl.errors] in H2, H3; cbn [length].
      split_and!; [|lia|lia|by apply Hup].
      rewrite H1. cbn [print written].
      by rewrite (proj1 (left_by_failure_log _ _ _)), Hw0.
Qed.



End Tally.

(** X5.  A run of [update-license-headers.py] writes only paths of its list
    that are not excluded, each text it writes holds the MIT header followed
    by an empty line, and the last line it prints gives the number of paths
    not excluded as the files processed and the number of writes as the
    files updated. *)
Theorem X5_update_run_tally (files : list path) (w : world) :
  ∃ extra,
    written (ToMit.main files w).2 = written w ++ extra ∧
    last (console (ToMit.main files w).2)
    = Some (ProcessedLine
              (length (List.filter (λ p, negb (ToMit.excluded p)) files))
              (length extra)) ∧
    (length extra ≤ length (List.filter (λ p, negb (ToMit.excluded p)) files))%nat ∧
    Forall (λ ps, ps.1 ∈ files ∧
                  (ToMit.excluded ps.1 = false ∧
                   contains (ToMit.NEW_HEADER ++ [nl; nl]) ps.2 = true)) extra.
Proof.
  unfold ToMit.main.
  destruct (ToMit_scan_tally files 0 0 w) as (extra & H1 & H2 & H3 & H4 & H5).
  destruct (ToMit.scan files 0 0 w) as [[total updated] w']. cbn [fst snd] in *.
  exists extra. split_and!; [done| |done|done].
  cbn [print console]. rewrite last_snoc. by rewrite H2, H3.
Qed.

(** X6.  A run of [update_license_headers.py] counts every path of its list
    under exactly one of its four counters, completes as many writes as it
    counts files replaced and added, writes only paths of its list, and
    each text it writes holds the new AGPL header. *)
Theorem X6_process_run_tally (files : list path) (w : world) :
  ∃ extra,
    written (ToAgpl.main files w).2 = written w ++ extra ∧
    (ToAgpl.replaced_count (ToAgpl.main files w).1.2
     + ToAgpl.added_count (ToAgpl.main files w).1.2 = length extra)%nat ∧
    (ToAgpl.replaced_count (ToAgpl.main files w).1.2
     + ToAgpl.added_count (ToAgpl.main files w).1.2
     + ToAgpl.skipped_count (ToAgpl.main files w).1.2
     + ToAgpl.errors (ToAgpl.main files w).1.2 = length files)%nat ∧
    Forall (λ ps, ps.1 ∈ files ∧
                  contains ToAgpl.NEW_AGPL_HEADER ps.2 = true) extra.
Proof.
  unfold ToAgpl.main.
  destruct (ToAgpl_scan_tally files 1 (length files) (ToAgpl.Counters 0 0 0 0) w)
    as (extra & H1 & H2 & H3 & H4).
  destruct (ToAgpl.scan files 1 (length files) (ToAgpl.Counters 0 0 0 0) w) as [c w1].
  cbn [fst snd ToAgpl.replaced_count ToAgpl.added_count ToAgpl.skipped_count
       ToAgpl.errors] in *.
  exists extra.
  destruct (0 <? ToAgpl.replaced_count c + ToAgpl.added_count c)%nat,
           (0 <? ToAgpl.errors c)%nat; cbn [fst snd print written];
    split_and!; first [done | lia].
Qed.


Section Compose.

Implicit Types (c rest : text).

(** The AGPL header of [update_license_headers.py] is matched by
    [AGPL_PATTERN] up to its close, whatever pattern and text come next. *)
Lemma rmatch_on_agpl_header (k : regex) rest n :
  rmatch k rest = Some n →
  rmatch (take 52 ToMit.AGPL_PATTERN ++ k) (ToAgpl.NEW_AGPL_HEADER ++ rest)
  = Some (810 + n)%nat.
Proof.
  intros H.
  let h := eval vm_compute in ToAgpl.NEW_AGPL_HEADER in
    change ToAgpl.NEW_AGPL_HEADER with h.
  let h := eval vm_compute in (take 52 ToMit.AGPL_PATTERN) in
    change (take 52 ToMit.AGPL_PATTERN) with h.
  cbn. rewrite H. reflexivity.
Qed.

Lemma rmatch_agpl_header c :
  clean_start c = true →
  rmatch ToMit.AGPL_PATTERN (ToAgpl.NEW_AGPL_HEADER ++ [nl; nl] ++ c) = Some 812%nat.
Proof.
  intros Hs. rewrite AGPL_PATTERN_tail.
  apply (rmatch_on_agpl_header _ (nl :: nl :: c) 2). by apply rmatch_tail_blank.
Qed.

Lemma new_content_of_agpl_header c :
  search ToMit.AGPL_PATTERN c = None → clean_start c = true →
  ToMit.new_content (ToAgpl.NEW_AGPL_HEADER ++ [nl; nl] ++ c)
  = ToMit.NEW_HEADER ++ [nl; nl] ++ c.
Proof.
  intros Ha Hs.
  rewrite (new_content_agpl _ 0 812 (search_here _ _ _ (rmatch_agpl_header c Hs))).
  assert (drop (0 + 812) (ToAgpl.NEW_AGPL_HEADER ++ [nl; nl] ++ c) = c) as ->.
  { rewrite (app_assoc _ [nl; nl] c). by apply drop_app_length'. }
  by rewrite sub_None.
Qed.


(** With the marker at its start and no header found, the content keeps
    the marker first. *)
Lemma new_content_marker c :
  search ToMit.AGPL_PATTERN c = None →
  search ToMit.COPYRIGHT_PATTERN c = None →
  startswith c ToMit.USE_CLIENT = true →
  ToMit.new_content c
  = (split_nl1 c).1 ++ [nl; nl] ++ ToMit.NEW_HEADER ++ [nl; nl]
      ++ default [] (split_nl1 c).2 ∧
  head (ToMit.new_content c) = Some 39.
Proof.
  intros Ha Hc Hm. unfold ToMit.new_content. rewrite Ha, Hc, Hm. split; [done|].
  destruct c as [|a c]; [done|].
  change ToMit.USE_CLIENT with (39 :: lit "use client'") in Hm.
  cbn [startswith] in Hm. apply andb_true_iff in Hm as [Ea _].
  apply N.eqb_eq in Ea as ->. cbn [split_nl1].
  change (39 =? nl) with false. cbv iota. by destruct (split_nl1 c).
Qed.

End Compose.

(** X8.  [update-license-headers.py] converts the header that
    [update_license_headers.py] adds: on the AGPL header, an empty line and a
    content in which [AGPL_PATTERN] is not found and whose leading whitespace
    holds no newline, [update_file] gives the MIT header, an empty line and
    that content; so does it on a file to which [process_file] added its
    header.  This is what it gives on the file as it was before when, in
    that file, [COPYRIGHT_PATTERN] is not found either and the content does
    not start with ['use client'].  When the content starts with
    ['use client'], it is not: after the two runs the MIT header stands
    before the marker, while on the file as it was it is put after the
    marker's line. *)
Theorem X8_update_after_process (c : text) :
  search ToMit.AGPL_PATTERN c = None →
  clean_start c = true →
  ToMit.new_content (ToAgpl.NEW_AGPL_HEADER ++ [nl; nl] ++ c)
  = ToMit.NEW_HEADER ++ [nl; nl] ++ c ∧
  (contains ToAgpl.OLD_MIT_HEADER c = false → ToAgpl.no_copyright c = true →
   ToMit.new_content (ToAgpl.rewrite c).2 = ToMit.NEW_HEADER ++ [nl; nl] ++ c) ∧
  (contains ToAgpl.OLD_MIT_HEADER c = false → ToAgpl.no_copyright c = true →
   search ToMit.COPYRIGHT_PATTERN c = None → startswith c ToMit.USE_CLIENT = false →
   ToMit.new_content (ToAgpl.rewrite c).2 = ToMit.new_content c) ∧
  (contains ToAgpl.OLD_MIT_HEADER c = false → ToAgpl.no_copyright c = true →
   search ToMit.COPYRIGHT_PATTERN c = None → startswith c ToMit.USE_CLIENT = true →
   ToMit.new_content c
   = (split_nl1 c).1 ++ [nl; nl] ++ ToMit.NEW_HEADER ++ [nl; nl]
       ++ default [] (split_nl1 c).2 ∧
   ToMit.new_content (ToAgpl.rewrite c).2 ≠ ToMit.new_content c).
Proof.
  intros Ha Hs.
  assert (E : ∀ Ho : contains ToAgpl.OLD_MIT_HEADER c = false,
            ToAgpl.no_copyright c = true →
            ToMit.new_content (ToAgpl.rewrite c).2 = ToMit.NEW_HEADER ++ [nl; nl] ++ c).
  { intros Ho Hc. unfold ToAgpl.rewrite. rewrite Ho, Hc. cbn [snd].
    by apply new_content_of_agpl_header. }
  split_and!; [by apply new_content_of_agpl_header|exact E| |].
  - intros Ho Hc Hcp Hm. rewrite (E Ho Hc).
    unfold ToMit.new_content. by rewrite Ha, Hcp, Hm.
  - intros Ho Hc Hcp Hm.
    destruct (new_content_marker c Ha Hcp Hm) as [E1 E2]. split; [exact E1|].
    rewrite (E Ho Hc). intros H. rewrite <- H in E2. discriminate E2.
Qed.

(** A plain module, and a client component. *)
Lemma X8_witness :
  let c := lit "export const x = 1;" ++ [nl] in
  let d := lit "'use client'" ++ nl :: lit "export const x = 1;" ++ [nl] in
  (ToMit.new_content (ToAgpl.NEW_AGPL_HEADER ++ [nl; nl] ++ c)
   = ToMit.NEW_HEADER ++ [nl; nl] ++ c ∧
   ToMit.new_content (ToAgpl.rewrite c).2 = ToMit.new_content c) ∧
  (ToMit.new_content (ToAgpl.rewrite d).2 = ToMit.NEW_HEADER ++ [nl; nl] ++ d ∧
   ToMit.new_content d
   = lit "'use client'" ++ [nl; nl] ++ ToMit.NEW_HEADER ++ [nl; nl]
       ++ lit "export const x = 1;" ++ [nl] ∧
   ToMit.new_content (ToAgpl.rewrite d).2 ≠ ToMit.new_content d).
Proof.
  intros c d. split.
  - destruct (X8_update_after_process c) as (H1 & _ & H3 & _); [reflexivity..|].
    split; [exact H1|]. apply H3; reflexivity.
  - destruct (X8_update_after_process d) as (_ & H2 & _ & H4); [reflexivity..|].
    destruct H4 as [H4 H5]; [reflexivity..|].
    split_and!; [apply H2; reflexivity|exact H4|exact H5].
Defined.



(** ** What [AGPL_PATTERN] matches *)

Section AgplShape.

Implicit Types (s t : text).

Lemma AGPL_PATTERN_parts :
  ToMit.AGPL_PATTERN
  = lits "/*" ++ [Star Space] ++ [One (Lit nl)] ++ [Star Space] ++ lits "*"
    ++ [Star Space] ++ lits "CIV.IQ" ++ [StarLazy Any] ++ [One (Lit nl)]
    ++ [StarLazy Any] ++ lits "GNU Affero General Public License"
    ++ [StarLazy Any] ++ lits "*/" ++ [Star Space] ++ [One (Lit nl)].
Proof. reflexivity. Qed.

Lemma denotes_agpl t : denotes ToMit.AGPL_PATTERN t ↔ agpl_span t.
Proof.
  rewrite AGPL_PATTERN_parts. unfold agpl_span. split.
  - intros H.
    apply denotes_app in H as (? & ? & -> & ->%denotes_lits & H).
    apply denotes_app in H as (ws1 & ? & -> & Hws1%denotes_star_iff & H).
    apply denotes_app in H as (? & ? & -> & (? & -> & ->%N.eqb_eq)%denotes_one_iff & H).
    apply denotes_app in H as (ws2 & ? & -> & Hws2%denotes_star_iff & H).
    apply denotes_app in H as (? & ? & -> & ->%denotes_lits & H).
    apply denotes_app in H as (ws3 & ? & -> & Hws3%denotes_star_iff & H).
    apply denotes_app in H as (? & ? & -> & ->%denotes_lits & H).
    apply denotes_app in H as (body1 & ? & -> & _ & H).
    apply denotes_app in H as (? & ? & -> & (? & -> & ->%N.eqb_eq)%denotes_one_iff & H).
    apply denotes_app in H as (body2 & ? & -> & _ & H).
    apply denotes_app in H as (? & ? & -> & ->%denotes_lits & H).
    apply denotes_app in H as (body3 & ? & -> & _ & H).
    apply denotes_app in H as (? & ? & -> & ->%denotes_lits & H).
    apply denotes_app in H as (ws4 & ? & -> & Hws4%denotes_star_iff & H).
    apply denotes_one_iff in H as (? & -> & ->%N.eqb_eq).
    by exists ws1, ws2, ws3, body1, body2, body3, ws4.
  - intros (ws1 & ws2 & ws3 & body1 & body2 & body3 & ws4 & -> & H1 & H2 & H3 & H4).
    repeat (apply denotes_app; eexists _, _; split; [reflexivity|split]).
    + by apply denotes_lits.
    + by apply denotes_star_iff.
    + apply denotes_one_iff. by exists nl.
    + by apply denotes_star_iff.
    + by apply denotes_lits.
    + by apply denotes_star_iff.
    + by apply denotes_lits.
    + apply denotes_lazy_iff, forallb_any.
    + apply denotes_one_iff. by exists nl.
    + apply denotes_lazy_iff, forallb_any.
    + by apply denotes_lits.
    + apply denotes_lazy_iff, forallb_any.
    + by apply denotes_lits.
    + by apply denotes_star_iff.
    + apply denotes_one_iff. by exists nl.
Qed.

Lemma agpl_span_contains t :
  agpl_span t →
  contains (lit "CIV.IQ") t = true ∧
  contains (lit "GNU Affero General Public License") t = true.
Proof.
  intros (ws1 & ws2 & ws3 & body1 & body2 & body3 & ws4 & -> & _). split.
  - rewrite 5!app_assoc. apply contains_here.
  - rewrite 9!app_assoc. apply contains_here.
Qed.

End AgplShape.

(** X10.  What [AGPL_PATTERN] takes for an AGPL header: the span it matches
    has the shape [agpl_span], so it opens with ["/*"] (a block opened with
    ["/**"] is never matched where it opens) and holds ["CIV.IQ"] and ["GNU
    Affero General Public License"]; a text of that shape anywhere in a
    content makes [update_file] replace with [AGPL_PATTERN], and the header
    [update_license_headers.py] writes, with the newline that ends it, has
    that shape. *)
Theorem X10_agpl_matcher (s pre blk rest : text) (n : nat) :
  (rmatch ToMit.AGPL_PATTERN s = Some n →
   agpl_span (take n s) ∧
   contains (lit "CIV.IQ") (take n s) = true ∧
   contains (lit "GNU Affero General Public License") (take n s) = true) ∧
  rmatch ToMit.AGPL_PATTERN (lit "/**" ++ s) = None ∧
  (agpl_span blk →
   is_Some (search ToMit.AGPL_PATTERN (pre ++ blk ++ rest)) ∧
   ToMit.new_content (pre ++ blk ++ rest)
   = sub ToMit.AGPL_PATTERN (ToMit.NEW_HEADER ++ [nl; nl]) (pre ++ blk ++ rest)) ∧
  agpl_span (ToAgpl.NEW_AGPL_HEADER ++ [nl]).
Proof.
  split_and!.
  - intros H. apply rmatch_sound in H as [H _]. apply denotes_agpl in H.
    split; [done|by apply agpl_span_contains].
  - reflexivity.
  - intros Hb.
    assert (Hs : is_Some (search ToMit.AGPL_PATTERN (pre ++ blk ++ rest))).
    { apply search_app, rmatch_complete. by apply denotes_agpl. }
    split; [done|]. destruct Hs as [x Hx]. unfold ToMit.new_content. by rewrite Hx.
  - apply denotes_agpl.
    assert (H : rmatch ToMit.AGPL_PATTERN (ToAgpl.NEW_AGPL_HEADER ++ [nl]) = Some 811%nat)
      by (vm_compute; reflexivity).
    apply rmatch_sound in H as [H _]. by rewrite take_ge in H.
Qed.

Lemma X10_witness :
  let blk := lines_lit ["/*"; " * CIV.IQ"; " * GNU Affero General Public License";
                        " */"; ""]%string in
  agpl_span blk ∧
  ToMit.new_content (lit "// @ts-check" ++ [nl] ++ blk ++ lit "export {};")
  = sub ToMit.AGPL_PATTERN (ToMit.NEW_HEADER ++ [nl; nl])
        (lit "// @ts-check" ++ [nl] ++ blk ++ lit "export {};").
Proof.
  intros blk.
  destruct (X10_agpl_matcher blk (lit "// @ts-check" ++ [nl]) blk (lit "export {};") 54)
    as (H1 & _ & H2 & _).
  destruct H1 as (Hs & _); [vm_compute; reflexivity|].
  rewrite take_ge in Hs by (vm_compute; lia).
  split; [exact Hs|]. destruct (H2 Hs) as [_ H]. rewrite <- app_assoc in H. exact H.
Defined.
